(** * Cube: the rotation engine of the 3x3x3 puzzle (src/app/page.tsx)

    A shallow embedding of the engine found in [RubiksCubeScene]: the
    27-piece cube state, the face selector, the discrete position and
    colour transforms, the animated quarter turn with its commit step, the
    move generator of the scrambler and the reset.

    JavaScript numbers are modelled as rationals [Q]: every operation the
    committed state goes through (negation, comparison, [Math.round]) is
    exact on them, and mid-animation positions are not integers.  The
    product [Math.random() * faces.length] of the scrambler is rounded to
    the nearest double, as the source computes it.  The transcendental
    functions used by the animation frames are parameters of the model.

    The engine follows the callbacks of the latest render; the module
    [Scene] models the callbacks as closures over the render that created
    them, with the pieces as shared objects. *)

From Stdlib Require Import ZArith QArith Qround Qabs Qpower Lia Lqa String.
From Stdlib Require Import DecimalString.
From stdpp Require Import base list.

Local Open Scope Q_scope.
Local Open Scope string_scope.
Local Open Scope list_scope.

(** ** JavaScript values used by the engine *)

Module Js.

(** An array element of [colors: string[]]: a string, or [undefined]
    when an index beyond the end of the array is read. *)
Inductive value : Type :=
| undefined : value
| str (s : string) : value.

(** [a[i]]: reading beyond the end yields [undefined]. *)
Definition get (a : list value) (i : nat) : value :=
  match a !! i with
  | Some v => v
  | None => undefined
  end.

(** [a[i] = v]: writing inside the array replaces the element; writing
    beyond its end extends the array, the slots in between being empty. *)
Definition set (a : list value) (i : nat) (v : value) : list value :=
  if (i <? length a)%nat then <[i := v]> a
  else a ++ replicate (i - length a) undefined ++ [v].

(** [Math.round]: the nearest integer, halves rounded towards
    +infinity. *)
Definition Math_round (x : Q) : Z := Qfloor (x + (1 # 2)).

(** [Math.min] on two numbers. *)
Definition Math_min (x y : Q) : Q := if Qle_bool x y then x else y.

(** The integer nearest to [y], the even one of the two when [y] lies
    half way between them. *)
Definition roundHalfEven (y : Q) : Z :=
  let f := Qfloor y in
  let r := y - inject_Z f in
  if negb (Qle_bool (1 # 2) r) then f
  else if Qle_bool r (1 # 2) then (if Z.even f then f else (f + 1)%Z)
  else (f + 1)%Z.

(** The binary exponent of a positive number [x]: the [e] with
    [2^e <= x < 2^(e+1)]. *)
Definition binade (x : Q) : Z :=
  let e := (Z.log2 (Qnum x) - Z.log2 (Zpos (Qden x)))%Z in
  if Qle_bool (2 ^ e) x then e else (e - 1)%Z.

(** The double nearest to [x], ties to even: [x] is rounded to 53
    significant bits.  The exponent range of doubles is left out; the
    products the engine rounds through this function lie in [0, 8). *)
Definition roundDouble (x : Q) : Q :=
  match Qnum x with
  | Z0 => 0
  | _ =>
      let q := 2 ^ (binade (Qabs x) - 52) in
      inject_Z (roundHalfEven (x / q)) * q
  end.

(** [x * y] on doubles. *)
Definition mul (x y : Q) : Q := roundDouble (x * y).

(** Template-literal rendering of a small integer, as in [`${x}`]. *)
Definition show (z : Z) : string := NilZero.string_of_int (Z.to_int z).

End Js.

(** A coordinate or Euler-angle triple [[number, number, number]]. *)
Definition vec3 : Type := Q * Q * Q.

Definition zero3 : vec3 := (0, 0, 0).

(** ** Permutation engine *)

(** [rotatePosition(pos, axis, clockwise)]. *)
Definition rotatePosition (pos : vec3) (axis : string) (clockwise : bool) : vec3 :=
  let '(x, y, z) := pos in
  if String.eqb axis "x" then
    if clockwise then (x, - z, y) else (x, z, - y)
  else if String.eqb axis "y" then
    if clockwise then (z, y, - x) else (- z, y, x)
  else if String.eqb axis "z" then
    if clockwise then (- y, x, z) else (y, - x, z)
  else pos.

(** One branch of [rotateColors]: with [temp = a[i0]], the four
    assignments [a[i0] = a[i1]; a[i1] = a[i2]; a[i2] = a[i3]; a[i3] = temp]
    performed in that order on the array. *)
Definition cycle4 (a : list Js.value) (i0 i1 i2 i3 : nat) : list Js.value :=
  let temp := Js.get a i0 in
  let a := Js.set a i0 (Js.get a i1) in
  let a := Js.set a i1 (Js.get a i2) in
  let a := Js.set a i2 (Js.get a i3) in
  Js.set a i3 temp.

(** [rotateColors(colors, axis, clockwise)]; [newColors] is a copy of
    [colors], so the argument itself is never modified. *)
Definition rotateColors (colors : list Js.value) (axis : string) (clockwise : bool)
  : list Js.value :=
  let newColors := colors in
  if String.eqb axis "x" then
    if negb clockwise then cycle4 newColors 2 4 3 5
    else cycle4 newColors 2 5 3 4
  else if String.eqb axis "y" then
    if negb clockwise then cycle4 newColors 0 4 1 5
    else cycle4 newColors 0 5 1 4
  else if String.eqb axis "z" then
    if negb clockwise then cycle4 newColors 0 2 1 3
    else cycle4 newColors 0 3 1 2
  else newColors.

(** ** Cube state model *)

(** [type Face]: a closed enumeration. *)
Inductive Face : Type := front | back | left | right | top | bottom.

#[global] Instance Face_eq_dec : EqDecision Face.
Proof. solve_decision. Defined.

(** [interface CubePieceState]. *)
Record CubePieceState : Type := mkPiece {
  id : string;
  position : vec3;
  colors : list Js.value;
  rotation : vec3;
  animationRotation : vec3
}.

(** [interface ShuffleMove]. *)
Record ShuffleMove : Type := mkMove {
  face : Face;
  clockwise : bool
}.

(** Field assignments [piece.position = ...], [piece.colors = ...] and
    [piece.rotation = ...]. *)
Definition set_position (v : vec3) (p : CubePieceState) : CubePieceState :=
  mkPiece (id p) v (colors p) (rotation p) (animationRotation p).

Definition set_colors (c : list Js.value) (p : CubePieceState) : CubePieceState :=
  mkPiece (id p) (position p) c (rotation p) (animationRotation p).

Definition set_rotation (v : vec3) (p : CubePieceState) : CubePieceState :=
  mkPiece (id p) (position p) (colors p) v (animationRotation p).

(** The table [COLORS]. *)
Module COLORS.
Definition front := "#ff0000".
Definition back := "#ffa500".
Definition left := "#00ff00".
Definition right := "#0000ff".
Definition top := "#ffff00".
Definition bottom := "#ffffff".
End COLORS.

(** The values taken by each of the three loop variables of
    [initializeCube]: [for (let x = -1; x <= 1; x++)]. *)
Definition loopRange : list Z := seqZ (-1) 3.

(** The piece pushed by the body of the innermost loop. *)
Definition initialPiece (x y z : Z) : CubePieceState :=
  let colors :=
    [ Js.str (if (x =? 1)%Z then COLORS.right else "#333333");
      Js.str (if (x =? -1)%Z then COLORS.left else "#333333");
      Js.str (if (y =? 1)%Z then COLORS.top else "#333333");
      Js.str (if (y =? -1)%Z then COLORS.bottom else "#333333");
      Js.str (if (z =? 1)%Z then COLORS.front else "#333333");
      Js.str (if (z =? -1)%Z then COLORS.back else "#333333") ] in
  {| id := Js.show x ++ "-" ++ Js.show y ++ "-" ++ Js.show z;
     position := (inject_Z x, inject_Z y, inject_Z z);
     colors := colors;
     rotation := zero3;
     animationRotation := zero3 |}.

(** [initializeCube()]: the three nested loops, pushing in loop order. *)
Definition initializeCube : list CubePieceState :=
  x ← loopRange; y ← loopRange; z ← loopRange; [initialPiece x y z].

(** ** Face selector *)

(** The [switch (face)] computing [shouldRotate] for one piece. *)
Definition shouldRotate (f : Face) (piece : CubePieceState) : bool :=
  let '(x, y, z) := position piece in
  match f with
  | front => (Js.Math_round z =? 1)%Z
  | back => (Js.Math_round z =? -1)%Z
  | top => (Js.Math_round y =? 1)%Z
  | bottom => (Js.Math_round y =? -1)%Z
  | right => (Js.Math_round x =? 1)%Z
  | left => (Js.Math_round x =? -1)%Z
  end.

(** [getAxisForFace(face)]. *)
Definition getAxisForFace (f : Face) : string :=
  match f with
  | front | back => "z"
  | top | bottom => "y"
  | right | left => "x"
  end.

(** The [newState.forEach] of [rotateFace].  A piece is an object shared
    between [newState] and [rotatingPieces]; it is identified here by its
    index in [newState].  The result lists, for every selected piece in
    array order, its index and the copies of its position and rotation
    pushed to [originalPositions] and [originalRotations]. *)
Fixpoint selectPieces (f : Face) (i : nat) (state : list CubePieceState)
  : list (nat * vec3 * vec3) :=
  match state with
  | [] => []
  | piece :: rest =>
      if shouldRotate f piece
      then (i, position piece, rotation piece) :: selectPieces f (S i) rest
      else selectPieces f (S i) rest
  end.

(** ** Turn animator *)

(** What the closure [animate] of one call of [rotateFace] holds on to. *)
Record Animation : Type := mkAnimation {
  animFace : Face;
  animClockwise : bool;
  newState : list CubePieceState;
  selected : list (nat * vec3 * vec3);
  startTime : Q
}.

Definition rotatingPieces (a : Animation) : list nat := (fun s => s.1.1) <$> selected a.
Definition originalPositions (a : Animation) : list vec3 := (fun s => s.1.2) <$> selected a.
Definition originalRotations (a : Animation) : list vec3 := (fun s => s.2) <$> selected a.

(** The React state of [RubiksCubeScene] the engine reads and writes,
    together with the animation currently scheduled through
    [requestAnimationFrame], if any.  The fields are the values the
    callbacks of the latest render hold; the entries of a state array are
    distinct objects, as [initializeCube] creates them. *)
Record Engine : Type := mkEngine {
  cubeState : list CubePieceState;
  isAnimating : bool;
  isShuffling : bool;
  inFlight : option Animation
}.

(** [useState(() => initializeCube())] and the other initial states. *)
Definition initialEngine : Engine :=
  {| cubeState := initializeCube; isAnimating := false;
     isShuffling := false; inFlight := None |}.

(** [rotateFace(face, clockwise)] up to its [requestAnimationFrame], as
    called through the callback of the latest render, which reads the
    fields of the engine; [now] is the value of [performance.now()].  A
    call through the callback of an earlier render is the matter of the
    module [Scene] below. *)
Definition rotateFace (f : Face) (cw : bool) (now : Q) (e : Engine) : Engine :=
  if isAnimating e then e
  else
    let newState := cubeState e in
    {| cubeState := cubeState e;
       isAnimating := true;
       isShuffling := isShuffling e;
       inFlight := Some {| animFace := f; animClockwise := cw;
                           newState := newState;
                           selected := selectPieces f 0 newState;
                           startTime := now |} |}.

Definition animationDuration : Q := 500.

(** [colorClockwise] of the completion branch. *)
Definition colorClockwise (f : Face) (cw : bool) : bool :=
  match f with
  | top | bottom => negb cw
  | _ => cw
  end.

(** The body of [rotatingPieces.forEach] in the completion branch, for the
    piece whose pre-turn position is [orig]. *)
Definition commitPiece (f : Face) (cw : bool) (orig : vec3) (piece : CubePieceState)
  : CubePieceState :=
  let piece := set_position (rotatePosition orig (getAxisForFace f) cw) piece in
  let piece := set_colors (rotateColors (colors piece) (getAxisForFace f)
                                        (colorClockwise f cw)) piece in
  set_rotation zero3 piece.

(** The completion branch's [forEach] over the selected pieces. *)
Definition commitPieces (f : Face) (cw : bool) (sel : list (nat * vec3 * vec3))
    (state : list CubePieceState) : list CubePieceState :=
  foldl (fun st s => alter (commitPiece f cw s.1.2) s.1.1 st) state sel.

(** The times of one turn: the call of [rotateFace], the frames the
    scheduler runs while the turn is under way, and one more frame. *)
Record Schedule : Type := mkSchedule {
  begins : Q;
  frameTimes : list Q;
  ends : Q
}.

(** The last frame of the schedule comes once the animation's duration
    has elapsed, so the turn is over after it. *)
Definition completes (s : Schedule) : Prop :=
  begins s + animationDuration <= ends s.

Section Animate.

(** [Math.cos], [Math.sin] and [Math.PI]. *)
Variables (Math_cos Math_sin : Q -> Q) (Math_PI : Q).

Definition totalAngle : Q := Math_PI / 2.

(** The body of [rotatingPieces.forEach] in the branch [progress < 1]. *)
Definition framePiece (f : Face) (currentAngle : Q) (orig origRot : vec3)
    (piece : CubePieceState) : CubePieceState :=
  let '(origX, origY, origZ) := orig in
  let c := Math_cos currentAngle in
  let s := Math_sin currentAngle in
  let newPos :=
    match f with
    | front =>
        if (Js.Math_round origZ =? 1)%Z
        then (c * origX - s * origY, s * origX + c * origY, origZ) else orig
    | back =>
        if (Js.Math_round origZ =? -1)%Z
        then (c * origX - s * origY, s * origX + c * origY, origZ) else orig
    | top =>
        if (Js.Math_round origY =? 1)%Z
        then (c * origX + s * origZ, origY, - s * origX + c * origZ) else orig
    | bottom =>
        if (Js.Math_round origY =? -1)%Z
        then (c * origX + s * origZ, origY, - s * origX + c * origZ) else orig
    | right =>
        if (Js.Math_round origX =? 1)%Z
        then (origX, c * origY - s * origZ, s * origY + c * origZ) else orig
    | left =>
        if (Js.Math_round origX =? -1)%Z
        then (origX, c * origY - s * origZ, s * origY + c * origZ) else orig
    end in
  let piece := set_position newPos piece in
  let '(origRx, origRy, origRz) := origRot in
  match f with
  | front | back => set_rotation (origRx, origRy, origRz + currentAngle) piece
  | top | bottom => set_rotation (origRx, origRy + currentAngle, origRz) piece
  | right | left => set_rotation (origRx + currentAngle, origRy, origRz) piece
  end.

Definition framePieces (f : Face) (currentAngle : Q)
    (sel : list (nat * vec3 * vec3)) (state : list CubePieceState)
  : list CubePieceState :=
  foldl (fun st s => alter (framePiece f currentAngle s.1.2 s.2) s.1.1 st) state sel.

(** One call [animate(currentTime)] made by the frame scheduler.  When
    no animation is scheduled there is no such call.  Times and angles
    are exact rationals: the doubles of the source round
    [elapsed / animationDuration] and the angle, so that a frame within a
    rounding error of the end of the duration can take the other branch
    of [progress < 1], and the angle of a frame is the exact one up to
    rounding.  The state a turn is committed to does not depend on
    either. *)
Definition animate (currentTime : Q) (e : Engine) : Engine :=
  match inFlight e with
  | None => e
  | Some a =>
      let elapsed := currentTime - startTime a in
      let progress := Js.Math_min (elapsed / animationDuration) 1 in
      let easeProgress := 1 - (1 - progress) ^ 3 in
      let currentAngle :=
        totalAngle * easeProgress * (if animClockwise a then 1 else - (1)) in
      if negb (Qle_bool 1 progress) then
        let st := framePieces (animFace a) currentAngle (selected a) (newState a) in
        {| cubeState := st;
           isAnimating := isAnimating e;
           isShuffling := isShuffling e;
           inFlight := Some {| animFace := animFace a;
                               animClockwise := animClockwise a;
                               newState := st;
                               selected := selected a;
                               startTime := startTime a |} |}
      else
        let st := commitPieces (animFace a) (animClockwise a) (selected a) (newState a) in
        {| cubeState := st;
           isAnimating := false;
           isShuffling := isShuffling e;
           inFlight := None |}
  end.

(** A whole turn as the scheduler runs it: the call of [rotateFace] at
    time [start], then one call of [animate] per frame time. *)
Definition runTurn (f : Face) (cw : bool) (start : Q) (frames : list Q)
    (e : Engine) : Engine :=
  foldl (fun e t => animate t e) (rotateFace f cw start e) frames.

(** A turn awaited to its completion. *)
Definition awaitedTurn (f : Face) (cw : bool) (s : Schedule) (e : Engine) : Engine :=
  runTurn f cw (begins s) (frameTimes s ++ [ends s]) e.

End Animate.

(** [resetCube()]. *)
Definition resetCube (e : Engine) : Engine :=
  {| cubeState := initializeCube;
     isAnimating := isAnimating e;
     isShuffling := isShuffling e;
     inFlight := inFlight e |}.

(** ** Scrambler: the move generator of [shuffleCube] *)

(** The array [faces] of [shuffleCube]. *)
Definition faces : list Face := [front; back; top; bottom; right; left].

(** [const shuffleMoves = 20]. *)
Definition shuffleMoves : nat := 20.

(** What running a loop of the generator can come to. *)
Inductive outcome (A : Type) : Type :=
| Done (a : A)       (* the loop ended with this result *)
| Spinning           (* the [do ... while] was still redrawing when the fuel ran out *)
| OutOfRange.        (* a draw was outside the range [0, 1) of [Math.random] *)

Arguments Done {A} a.
Arguments Spinning {A}.
Arguments OutOfRange {A}.

(** [faces[Math.floor(r * faces.length)]], for a value [r] returned by
    [Math.random()]; the product is the product of doubles, rounded;
    [None] stands for [undefined]. *)
Definition pickFace (r : Q) : option Face :=
  let i := Qfloor (Js.mul r (inject_Z (Z.of_nat (length faces)))) in
  if (i <? 0)%Z then None else faces !! Z.to_nat i.

(** [Math.random() > 0.5]. *)
Definition pickDirection (r : Q) : bool := negb (Qle_bool r (1 # 2)).

Section Shuffle.

(** [Math_random k] is the value returned by the [k]-th call of
    [Math.random()], counting from 0. *)
Variable Math_random : nat -> Q.

(** The [do { randomFace = ... } while (randomFace === lastFace)] loop,
    started when [k] values have been drawn.  It returns the accepted
    face and the number of values drawn so far. *)
Fixpoint drawFace (fuel : nat) (k : nat) (lastFace : option Face)
  : outcome (Face * nat) :=
  match fuel with
  | O => Spinning
  | S fuel' =>
      match pickFace (Math_random k) with
      | None => OutOfRange
      | Some randomFace =>
          if decide (Some randomFace = lastFace)
          then drawFace fuel' (S k) lastFace
          else Done (randomFace, S k)
      end
  end.

(** The [for] loop with [count] iterations left: each draws a face,
    then a direction, and pushes the move. *)
Fixpoint generateMoves (fuel : nat) (count : nat) (k : nat)
    (lastFace : option Face) : outcome (list ShuffleMove * nat) :=
  match count with
  | O => Done ([], k)
  | S count' =>
      match drawFace fuel k lastFace with
      | Done (randomFace, k1) =>
          let randomDirection := pickDirection (Math_random k1) in
          match generateMoves fuel count' (S k1) (Some randomFace) with
          | Done (moves, k2) =>
              Done ({| face := randomFace; clockwise := randomDirection |} :: moves, k2)
          | Spinning => Spinning
          | OutOfRange => OutOfRange
          end
      | Spinning => Spinning
      | OutOfRange => OutOfRange
      end
  end.

(** [shuffleCube()] up to the end of the generation loop: the guard, the
    busy flag and the generated [moves] ([lastFace] starts as [null]). *)
Definition shuffleCube (fuel : nat) (k : nat) (e : Engine)
  : Engine * outcome (list ShuffleMove * nat) :=
  if isShuffling e || isAnimating e then (e, Done ([], k))
  else
    ({| cubeState := cubeState e; isAnimating := isAnimating e;
        isShuffling := true; inFlight := inFlight e |},
     generateMoves fuel shuffleMoves k None).

End Shuffle.

(** ** Vocabulary of the properties *)

(** The three axis names [getAxisForFace] can return. *)
Definition axes : list string := ["x"; "y"; "z"].

(** Facelet slots are ordered +x, -x, +y, -y, +z, -z.  The two slots
    parallel to an axis and the four perpendicular to it. *)
Definition parallelSlots (axis : string) : list nat :=
  if String.eqb axis "x" then [0; 1]%nat
  else if String.eqb axis "y" then [2; 3]%nat
  else if String.eqb axis "z" then [4; 5]%nat
  else [].

Definition perpendicularSlots (axis : string) : list nat :=
  if String.eqb axis "x" then [2; 3; 4; 5]%nat
  else if String.eqb axis "y" then [0; 1; 4; 5]%nat
  else if String.eqb axis "z" then [0; 1; 2; 3]%nat
  else [].

(** The slot a 4-cycle branch reads the new content of slot [i] from. *)
Definition cycleSource (i0 i1 i2 i3 : nat) (i : nat) : nat :=
  if (i =? i0)%nat then i1
  else if (i =? i1)%nat then i2
  else if (i =? i2)%nat then i3
  else if (i =? i3)%nat then i0
  else i.

(** The slot permutation each branch of [rotateColors] performs. *)
Definition slotSource (axis : string) (cw : bool) : nat -> nat :=
  if String.eqb axis "x" then
    if negb cw then cycleSource 2 4 3 5 else cycleSource 2 5 3 4
  else if String.eqb axis "y" then
    if negb cw then cycleSource 0 4 1 5 else cycleSource 0 5 1 4
  else if String.eqb axis "z" then
    if negb cw then cycleSource 0 2 1 3 else cycleSource 0 3 1 2
  else fun i => i.

(** The component of a coordinate triple on an axis, and the layer value
    a face is bound to on its axis. *)
Definition axisCoordinate (axis : string) (pos : vec3) : Q :=
  let '(x, y, z) := pos in
  if String.eqb axis "x" then x else if String.eqb axis "y" then y else z.

Definition layerValue (f : Face) : Z :=
  match f with
  | front | top | right => 1
  | back | bottom | left => -1
  end.

(** The cube state a completed turn leaves behind, as a function of the
    state the turn started from: the pieces of the layer are committed,
    the others are left alone. *)
Definition committedPiece (f : Face) (cw : bool) (piece : CubePieceState)
  : CubePieceState :=
  if shouldRotate f piece then commitPiece f cw (position piece) piece
  else piece.

Definition committedTurn (f : Face) (cw : bool) (state : list CubePieceState)
  : list CubePieceState :=
  committedPiece f cw <$> state.

(** [st'] differs from [st] at most by the position and rotation of the
    pieces [f] selects in [st]: what animation frames do to a state. *)
Definition sameButMotion (f : Face) (st st' : list CubePieceState) : Prop :=
  Forall2 (fun p p' =>
             id p' = id p /\ colors p' = colors p /\
             animationRotation p' = animationRotation p /\
             (shouldRotate f p = false -> p' = p)) st st'.

(** The engine while the turn started on state [st0] is under way, and
    once it is over. *)
Definition turning (f : Face) (cw : bool) (start : Q)
    (st0 : list CubePieceState) (shuffling : bool) (e : Engine) : Prop :=
  exists st,
    sameButMotion f st0 st /\
    e = {| cubeState := st; isAnimating := true; isShuffling := shuffling;
           inFlight := Some {| animFace := f; animClockwise := cw;
                               newState := st;
                               selected := selectPieces f 0 st0;
                               startTime := start |} |}.

Definition turnDone (f : Face) (cw : bool) (st0 : list CubePieceState)
    (shuffling : bool) : Engine :=
  {| cubeState := committedTurn f cw st0; isAnimating := false;
     isShuffling := shuffling; inFlight := None |}.

(** A piece at rest carries no transient rotation; a well-formed piece has
    its six facelets. *)
Definition restingPiece (piece : CubePieceState) : Prop :=
  rotation piece = zero3 /\ length (colors piece) = 6%nat.

(** The facelet colours of the solved piece at integer coordinate
    [(x, y, z)]: the face colour on each outward side, neutral elsewhere. *)
Definition solvedColors (x y z : Z) : list Js.value :=
  [ Js.str (if decide (x = 1)%Z then "#0000ff" else "#333333");
    Js.str (if decide (x = -1)%Z then "#00ff00" else "#333333");
    Js.str (if decide (y = 1)%Z then "#ffff00" else "#333333");
    Js.str (if decide (y = -1)%Z then "#ffffff" else "#333333");
    Js.str (if decide (z = 1)%Z then "#ff0000" else "#333333");
    Js.str (if decide (z = -1)%Z then "#ffa500" else "#333333") ].

(** No two consecutive moves of a sequence share their face. *)
Definition noImmediateRepeat (moves : list ShuffleMove) : Prop :=
  forall i m1 m2,
    moves !! i = Some m1 -> moves !! S i = Some m2 -> face m1 <> face m2.

(** The contract of [Math.random]: every value is a double of [0, 1),
    hence at most 1 - 2^-53, the largest double below 1. *)
Definition inUnitRange (rnd : nat -> Q) : Prop :=
  forall k, 0 <= rnd k /\ rnd k <= 1 - (1 # 9007199254740992).

(** The random source does not draw one face forever: whatever the face
    and the point reached, some later draw picks another face. *)
Definition neverStalls (rnd : nat -> Q) : Prop :=
  forall k f, exists j, (k <= j)%nat /\ pickFace (rnd j) <> Some f.

(** A random source used to exercise the generator: it returns 0 and 1/2
    in turn, so the faces drawn alternate between [front] and [bottom]. *)
Definition alternatingSource (k : nat) : Q :=
  if Nat.even k then 0 else 1 # 2.

(** [drawnFrom rnd k lastFace moves k'] reads the moves off the random
    values, from the [k]-th on.  The face of a move is picked by the first
    value that does not pick the face of the move before ([lastFace] for
    the first move); every value drawn before it for this move picked that
    face; the value drawn next gives the direction, clockwise exactly when
    it is above 1/2.  In all, the values before the [k']-th are used. *)
Fixpoint drawnFrom (rnd : nat -> Q) (k : nat) (lastFace : option Face)
    (moves : list ShuffleMove) (k' : nat) : Prop :=
  match moves with
  | [] => k' = k
  | m :: rest =>
      exists p : nat,
        (k <= p)%nat /\
        (forall q, (k <= q < p)%nat -> pickFace (rnd q) = lastFace) /\
        pickFace (rnd p) = Some (face m) /\
        Some (face m) <> lastFace /\
        (clockwise m = true <-> 1 # 2 < rnd (S p)) /\
        drawnFrom rnd (S (S p)) (Some (face m)) rest k'
  end.

(** ** Vocabulary of the invariants of the cube state *)

#[global] Instance Q_eq_dec : EqDecision Q.
Proof. solve_decision. Defined.

#[global] Instance value_eq_dec : EqDecision Js.value.
Proof.
  intros [|s] [|t]; try (right; discriminate); [left; reflexivity|].
  destruct (string_dec s t) as [->|Hne]; [left; reflexivity|right; congruence].
Defined.

(** The 27 cells of the puzzle, in the order [initializeCube] visits them. *)
Definition grid : list vec3 :=
  x ← loopRange; y ← loopRange; z ← loopRange;
  [(inject_Z x, inject_Z y, inject_Z z)].

(** Every cell holds exactly one piece. *)
Definition onePiecePerCell (state : list CubePieceState) : Prop :=
  position <$> state ≡ₚ grid.

(** A position belongs to the layer of a face. *)
Definition inLayer (f : Face) (pos : vec3) : bool :=
  (Js.Math_round (axisCoordinate (getAxisForFace f) pos) =? layerValue f)%Z.

(** Where a committed turn sends the piece found at a position. *)
Definition turnPosition (f : Face) (cw : bool) (pos : vec3) : vec3 :=
  if inLayer f pos then rotatePosition pos (getAxisForFace f) cw else pos.

(** The face across the cube. *)
Definition oppositeFace (f : Face) : Face :=
  match f with
  | front => back | back => front
  | top => bottom | bottom => top
  | right => left | left => right
  end.

(** The neutral colour of the facelets that do not show. *)
Definition neutral : Js.value := Js.str "#333333".

Definition isSticker (c : Js.value) : bool := negb (bool_decide (c = neutral)).

(** The sides of a cell that lie on the surface of the cube, in the
    facelet order +x, -x, +y, -y, +z, -z. *)
Definition outwardSides (pos : vec3) : list bool :=
  let '(x, y, z) := pos in
  [Qeq_bool x 1; Qeq_bool x (- (1)); Qeq_bool y 1; Qeq_bool y (- (1));
   Qeq_bool z 1; Qeq_bool z (- (1))].

(** The coloured facelets of a piece are exactly the ones that face
    outward where the piece now sits. *)
Definition stickersOutward (piece : CubePieceState) : Prop :=
  isSticker <$> colors piece = outwardSides (position piece).

(** All the facelet colours of a cube state. *)
Definition allColors (state : list CubePieceState) : list Js.value :=
  state ≫= colors.

(** One turn request with the times it runs at. *)
Record TurnRequest : Type := mkRequest {
  reqFace : Face;
  reqClockwise : bool;
  reqSchedule : Schedule
}.

Section Sequences.

Variables (Math_cos Math_sin : Q -> Q) (Math_PI : Q).

(** Turn requests awaited one after the other. *)
Definition runTurns (requests : list TurnRequest) (e : Engine) : Engine :=
  foldl (fun e r =>
           awaitedTurn Math_cos Math_sin Math_PI
             (reqFace r) (reqClockwise r) (reqSchedule r) e)
        e requests.

End Sequences.

(** What every cube state reached by turns from the solved cube keeps. *)
Definition cubeInvariant (state : list CubePieceState) : Prop :=
  Forall restingPiece state /\
  onePiecePerCell state /\
  Forall stickersOutward state /\
  id <$> state = id <$> initializeCube /\
  allColors state ≡ₚ allColors initializeCube.

(** ** The draggable control panel *)


Definition Qlt_bool (a b : Q) : bool := negb (Qle_bool b a).

Module Panel.

(** [{ x, y }]. *)
Record Point : Type := mkPoint { x : Q; y : Q }.

(** What the handlers read of [panelRef.current.getBoundingClientRect()]. *)
Record DOMRect : Type := mkRect { left : Q; top : Q; width : Q; height : Q }.


(** [window.innerWidth] and [window.innerHeight]. *)
Record Viewport : Type := mkViewport { innerWidth : Q; innerHeight : Q }.

(** The state of [DraggableControlPanel]: its three state variables and
    the ref [dragStateRef]. *)
Record State : Type := mkState {
  position : Point;
  isDragging : bool;
  dragOffset : Point;
  dragStateRef : bool
}.

(** [initialPosition = { x: 20, y: 20 }] and the other initial values. *)
Definition initialState : State :=
  {| position := {| x := 20; y := 20 |};
     isDragging := false;
     dragOffset := {| x := 0; y := 0 |};
     dragStateRef := false |}.



(** [handleMouseUp()]. *)
Definition handleMouseUp (panelRect : option DOMRect) (win : Viewport)
    (s : State) : State :=
  if negb (dragStateRef s) then s
  else
    let snapThreshold := 50 in
    let windowWidth := innerWidth win in
    let windowHeight := innerHeight win in
    match panelRect with
    | None =>
        {| position := position s; isDragging := false;
           dragOffset := dragOffset s; dragStateRef := false |}
    | Some panelRect =>
        let panelWidth := width panelRect in
        let panelHeight := height panelRect in
        let finalX := x (position s) in
        let finalY := y (position s) in
        let finalX := if Qlt_bool (x (position s)) snapThreshold then 20 else finalX in
        let finalY := if Qlt_bool (y (position s)) snapThreshold then 20 else finalY in
        let finalX :=
          if Qlt_bool (windowWidth - panelWidth - snapThreshold) (x (position s))
          then windowWidth - panelWidth - 20 else finalX in
        let finalY :=
          if Qlt_bool (windowHeight - panelHeight - snapThreshold) (y (position s))
          then windowHeight - panelHeight - 20 else finalY in
        {| position := {| x := finalX; y := finalY |};
           isDragging := false;
           dragOffset := dragOffset s;
           dragStateRef := false |}
    end.

End Panel.

(** ** The scrambler's timers *)

Module Scrambler.

(** The two callbacks [shuffleCube] hands to [setTimeout]: the one of
    [moves.forEach], which belongs to one call of [shuffleCube] (it counts
    in that call's [completedMoves]) and carries its move, and the one
    scheduled after the last move. *)
Inductive TimerCallback : Type :=
| dispatchMove (run : nat) (move : ShuffleMove)
| finishShuffle.

(** A timer the browser holds: the id [setTimeout] returned, the time it
    is due at and its callback. *)
Record Timer : Type := mkTimer {
  timeoutId : nat;
  due : Q;
  callback : TimerCallback
}.

(** The state the scrambler works on: the state variables [isShuffling]
    and [shuffleTimeouts], the ref [shuffleActiveRef], the counter
    [completedMoves] of every call of [shuffleCube] that passed its guard,
    the timers pending in the browser in the order they were set, and the
    calls [rotateFace(move.face, move.clockwise)] made so far, oldest
    first.  The state variables are taken at the values of the latest
    render, which is what the handlers exposed on [window] read; a
    dispatched move is recorded, not carried out on the cube. *)
Record State : Type := mkState {
  isShuffling : bool;
  shuffleActiveRef : bool;
  shuffleTimeouts : list nat;
  completedMoves : list nat;
  timers : list Timer;
  nextTimeoutId : nat;
  dispatched : list ShuffleMove
}.

Definition initialState : State :=
  {| isShuffling := false; shuffleActiveRef := false; shuffleTimeouts := [];
     completedMoves := []; timers := []; nextTimeoutId := 0; dispatched := [] |}.

(** [setTimeout(callback, delay)] called at time [now]. *)
Definition setTimeout (cb : TimerCallback) (delay now : Q) (s : State) : State :=
  {| isShuffling := isShuffling s;
     shuffleActiveRef := shuffleActiveRef s;
     shuffleTimeouts := shuffleTimeouts s;
     completedMoves := completedMoves s;
     timers := timers s ++ [ {| timeoutId := nextTimeoutId s;
                                due := now + delay;
                                callback := cb |} ];
     nextTimeoutId := S (nextTimeoutId s);
     dispatched := dispatched s |}.

(** [clearTimeout(id)]. *)
Definition clearTimeout (i : nat) (s : State) : State :=
  {| isShuffling := isShuffling s;
     shuffleActiveRef := shuffleActiveRef s;
     shuffleTimeouts := shuffleTimeouts s;
     completedMoves := completedMoves s;
     timers := filter (fun t => timeoutId t <> i) (timers s);
     nextTimeoutId := nextTimeoutId s;
     dispatched := dispatched s |}.

(** The interval between two moves, in milliseconds. *)
Definition stepDelay : Q := 600.

(** [moves.forEach((move, i) => { ... setTimeout(..., i * 600);
    timeouts.push(timeoutId) })], from index [i] on; it returns the ids
    pushed. *)
Fixpoint scheduleMoves (run : nat) (now : Q) (i : nat) (moves : list ShuffleMove)
    (s : State) : State * list nat :=
  match moves with
  | [] => (s, [])
  | move :: rest =>
      let timeoutId := nextTimeoutId s in
      let s := setTimeout (dispatchMove run move)
                          (inject_Z (Z.of_nat i) * stepDelay) now s in
      let '(s, timeouts) := scheduleMoves run now (S i) rest s in
      (s, timeoutId :: timeouts)
  end.

(** [shuffleCube()] called at time [now], once its loop has generated
    [moves]; [animating] is the value of [isAnimating] it reads. *)
Definition shuffleCube (animating : bool) (now : Q) (moves : list ShuffleMove)
    (s : State) : State :=
  if isShuffling s || animating then s
  else
    let run := length (completedMoves s) in
    let s := {| isShuffling := true;
                shuffleActiveRef := true;
                shuffleTimeouts := shuffleTimeouts s;
                completedMoves := completedMoves s ++ [0%nat];
                timers := timers s;
                nextTimeoutId := nextTimeoutId s;
                dispatched := dispatched s |} in
    let '(s, timeouts) := scheduleMoves run now 0 moves s in
    {| isShuffling := isShuffling s;
       shuffleActiveRef := shuffleActiveRef s;
       shuffleTimeouts := timeouts;
       completedMoves := completedMoves s;
       timers := timers s;
       nextTimeoutId := nextTimeoutId s;
       dispatched := dispatched s |}.

(** [stopShuffle()]. *)
Definition stopShuffle (s : State) : State :=
  let s :=
    if (0 <? length (shuffleTimeouts s))%nat then
      let s' := foldl (fun s i => clearTimeout i s) s (shuffleTimeouts s) in
      {| isShuffling := isShuffling s';
         shuffleActiveRef := shuffleActiveRef s';
         shuffleTimeouts := [];
         completedMoves := completedMoves s';
         timers := timers s';
         nextTimeoutId := nextTimeoutId s';
         dispatched := dispatched s' |}
    else s in
  {| isShuffling := false;
     shuffleActiveRef := false;
     shuffleTimeouts := shuffleTimeouts s;
     completedMoves := completedMoves s;
     timers := timers s;
     nextTimeoutId := nextTimeoutId s;
     dispatched := dispatched s |}.

(** The body of a timer callback, run at time [now]. *)
Definition runCallback (cb : TimerCallback) (now : Q) (s : State) : State :=
  match cb with
  | dispatchMove run move =>
      if shuffleActiveRef s then
        let s := {| isShuffling := isShuffling s;
                    shuffleActiveRef := shuffleActiveRef s;
                    shuffleTimeouts := shuffleTimeouts s;
                    completedMoves := alter S run (completedMoves s);
                    timers := timers s;
                    nextTimeoutId := nextTimeoutId s;
                    dispatched := dispatched s ++ [move] |} in
        if decide (completedMoves s !! run = Some shuffleMoves)
        then setTimeout finishShuffle 600 now s
        else s
      else s
  | finishShuffle =>
      {| isShuffling := false;
         shuffleActiveRef := false;
         shuffleTimeouts := [];
         completedMoves := completedMoves s;
         timers := timers s;
         nextTimeoutId := nextTimeoutId s;
         dispatched := dispatched s |}
  end.

(** The pending timer the browser runs next: the one due first, the one
    set first among equals. *)
Fixpoint earliest (ts : list Timer) : option Timer :=
  match ts with
  | [] => None
  | t :: rest =>
      match earliest rest with
      | Some t' => if Qle_bool (due t) (due t') then Some t else Some t'
      | None => Some t
      end
  end.

(** The browser at time [now]: it runs the next pending timer if that
    one is due, and forgets it. *)
Definition fireNext (now : Q) (s : State) : State :=
  match earliest (timers s) with
  | Some t =>
      if Qle_bool (due t) now then
        runCallback (callback t) now (clearTimeout (timeoutId t) s)
      else s
  | None => s
  end.

(** What happens to the scrambler between two calls of [shuffleCube]. *)
Inductive Event : Type :=
| tick (now : Q)
| stop.

Definition step (s : State) (ev : Event) : State :=
  match ev with
  | tick now => fireNext now s
  | stop => stopShuffle s
  end.

(** The ticks of a list come in time for the timers set at
    [start + i * 600], [start + (i + 1) * 600], ... *)
Fixpoint onTime (start : Q) (i : nat) (ticks : list Q) : Prop :=
  match ticks with
  | [] => True
  | t :: rest =>
      start + inject_Z (Z.of_nat i) * stepDelay <= t /\ onTime start (S i) rest
  end.

End Scrambler.

(** The timers [scheduleMoves] sets for [moves], the first of them with
    id [i0] and index [i]. *)
Fixpoint moveTimers (run : nat) (start : Q) (i0 i : nat) (moves : list ShuffleMove)
  : list Scrambler.Timer :=
  match moves with
  | [] => []
  | move :: rest =>
      {| Scrambler.timeoutId := i0;
         Scrambler.due := start + inject_Z (Z.of_nat i) * Scrambler.stepDelay;
         Scrambler.callback := Scrambler.dispatchMove run move |}
      :: moveTimers run start (S i0) (S i) rest
  end.

(** A run of [shuffleCube] under way: the first [i] of its moves have
    been dispatched, the timers of the moves [rest] are the pending ones. *)
Definition midRun (run : nat) (start : Q) (i0 i : nat) (rest : list ShuffleMove)
    (s : Scrambler.State) : Prop :=
  Scrambler.shuffleActiveRef s = true /\
  Scrambler.timers s = moveTimers run start i0 i rest /\
  Scrambler.completedMoves s !! run = Some i.

(** Twenty moves and the times of their timers, to exercise the
    scrambler: the faces alternate, the timers fire when due. *)
Definition sampleMoves : list ShuffleMove :=
  (fun i => {| face := if Nat.even i then front else bottom; clockwise := Nat.even i |})
    <$> seq 0 20.

Definition sampleTicks (n : nat) : list Q :=
  (fun i => inject_Z (Z.of_nat i) * 600) <$> seq 0 n.

#[global] Instance string_eq_dec : EqDecision string := string_dec.

(** ** The scene across renders *)

(** [RubiksCubeScene] creates its callbacks with [useCallback]: a callback
    reads the state variables at the values they had in the render that
    created it.  The engine above follows the callbacks of the latest
    render, which are the ones the buttons of the control panel call
    through [window].  The timers of [shuffleCube] call the [rotateFace]
    of the render in which the shuffle began, all twenty of them.  This
    module keeps the two apart: a call of [rotateFace] goes through a
    closure, and the pieces are objects shared by every state array that
    lists them, as [[...cubeState]] copies the array and not the pieces. *)
Module Scene.

(** What a callback [rotateFace] holds of the render that created it: the
    values of its dependencies [cubeState] and [isAnimating].  A state
    array lists piece objects; an object is named by its index in the
    store [pieces] below. *)
Record Closure : Type := mkClosure {
  capturedCubeState : list nat;
  capturedIsAnimating : bool
}.

(** The closure [animate] of one call of [rotateFace], as handed to
    [requestAnimationFrame]: [selected] lists each piece of
    [rotatingPieces] with its entries of [originalPositions] and
    [originalRotations]. *)
Record AnimateCallback : Type := mkAnimateCallback {
  face : Face;
  clockwise : bool;
  newState : list nat;
  selected : list (nat * vec3 * vec3);
  startTime : Q
}.

(** The piece objects, the state variables [cubeState] and [isAnimating]
    at their latest values, and the callbacks waiting for the next
    animation frame, in the order they were requested. *)
Record State : Type := mkState {
  pieces : list CubePieceState;
  cubeState : list nat;
  isAnimating : bool;
  frameRequests : list AnimateCallback
}.

(** The first render: [useState(() => initializeCube())]. *)
Definition initialState : State :=
  {| pieces := initializeCube;
     cubeState := seq 0 (length initializeCube);
     isAnimating := false;
     frameRequests := [] |}.

(** The [rotateFace] the latest render creates. *)
Definition latestRotateFace (s : State) : Closure :=
  {| capturedCubeState := cubeState s; capturedIsAnimating := isAnimating s |}.

(** What the latest render draws: [cubeState.map(piece => ...)]. *)
Definition rendered (s : State) : list CubePieceState :=
  omap (fun ref => pieces s !! ref) (cubeState s).

(** The [newState.forEach] of [rotateFace], over the piece objects. *)
Fixpoint selectPieces (f : Face) (store : list CubePieceState) (state : list nat)
  : list (nat * vec3 * vec3) :=
  match state with
  | [] => []
  | ref :: rest =>
      match store !! ref with
      | Some piece =>
          if shouldRotate f piece
          then (ref, position piece, rotation piece) :: selectPieces f store rest
          else selectPieces f store rest
      | None => selectPieces f store rest
      end
  end.

(** A call [rotateFace(face, clockwise)] through the closure [c], at time
    [now]: the guard reads the [isAnimating] the closure holds,
    [setIsAnimating(true)] writes the state variable, and [newState]
    copies the array the closure holds. *)
Definition rotateFace (c : Closure) (f : Face) (cw : bool) (now : Q) (s : State)
  : State :=
  if capturedIsAnimating c then s
  else
    let newState := capturedCubeState c in
    {| pieces := pieces s;
       cubeState := cubeState s;
       isAnimating := true;
       frameRequests :=
         frameRequests s ++ [ {| face := f; clockwise := cw;
                                 newState := newState;
                                 selected := selectPieces f (pieces s) newState;
                                 startTime := now |} ] |}.

Section Frames.

Variables (Math_cos Math_sin : Q -> Q) (Math_PI : Q).

(** One call [animate(currentTime)] of the callback [a]. *)
Definition animate (a : AnimateCallback) (currentTime : Q) (s : State) : State :=
  let elapsed := currentTime - startTime a in
  let progress := Js.Math_min (elapsed / animationDuration) 1 in
  let easeProgress := 1 - (1 - progress) ^ 3 in
  let currentAngle :=
    totalAngle Math_PI * easeProgress * (if clockwise a then 1 else - (1)) in
  if negb (Qle_bool 1 progress) then
    {| pieces := framePieces Math_cos Math_sin (face a) currentAngle
                             (selected a) (pieces s);
       cubeState := newState a;
       isAnimating := isAnimating s;
       frameRequests := frameRequests s ++ [a] |}
  else
    {| pieces := commitPieces (face a) (clockwise a) (selected a) (pieces s);
       cubeState := newState a;
       isAnimating := false;
       frameRequests := frameRequests s |}.

(** An animation frame at time [t]: the browser calls the callbacks
    requested so far, in order; what they request waits for the next
    frame. *)
Definition runFrame (t : Q) (s : State) : State :=
  foldl (fun s a => animate a t s)
        {| pieces := pieces s; cubeState := cubeState s;
           isAnimating := isAnimating s; frameRequests := [] |}
        (frameRequests s).

End Frames.

End Scene.

(** ** The permutation engine *)

Lemma Qopp_opp_eq (q : Q) : - - q = q.
Proof. destruct q as [n d]. unfold Qopp. simpl. now rewrite Z.opp_involutive. Qed.

Lemma length_six {A : Type} (l : list A) :
  length l = 6%nat -> exists a b c d e f, l = [a; b; c; d; e; f].
Proof.
  intros H. do 6 (destruct l as [|? l]; [discriminate H|]).
  destruct l; [|discriminate H]. eauto 10.
Qed.

Lemma elem_of_axes (axis : string) :
  axis ∈ axes -> axis = "x" \/ axis = "y" \/ axis = "z".
Proof.
  unfold axes. rewrite !elem_of_cons, elem_of_nil. tauto.
Qed.

(** Unfolds [rotatePosition] or [rotateColors] on an arbitrary axis name
    and splits on the three comparisons of the [switch]. *)
Ltac switch_axis axis :=
  destruct (String.eqb axis "x");
  [|destruct (String.eqb axis "y");
    [|destruct (String.eqb axis "z")]].

(** C3: on every coordinate triple the position transform is the table of
    the six quarter turns: axis x gives (x,-z,y) clockwise and (x,z,-y)
    counter-clockwise, axis y gives (z,y,-x) and (-z,y,x), axis z gives
    (-y,x,z) and (y,-x,z). *)
Theorem rotatePosition_table (x y z : Q) :
  rotatePosition (x, y, z) "x" true = (x, - z, y) /\
  rotatePosition (x, y, z) "x" false = (x, z, - y) /\
  rotatePosition (x, y, z) "y" true = (z, y, - x) /\
  rotatePosition (x, y, z) "y" false = (- z, y, x) /\
  rotatePosition (x, y, z) "z" true = (- y, x, z) /\
  rotatePosition (x, y, z) "z" false = (y, - x, z).
Proof. repeat split. Qed.

Example rotatePosition_corner :
  rotatePosition (1, 1, 1) "z" true = (- (1), 1, 1).
Proof. reflexivity. Qed.

Example rotatePosition_other_axis (p : vec3) :
  rotatePosition p "w" true = p.
Proof. now destruct p as [[x y] z]. Qed.

(** C2: clockwise followed by counter-clockwise on the same axis restores
    every coordinate triple, and restores every array of six facelet
    colours. *)
Theorem rotate_round_trip (p : vec3) (colors : list Js.value) (axis : string)
    (Hsix : length colors = 6%nat) :
  rotatePosition (rotatePosition p axis true) axis false = p /\
  rotateColors (rotateColors colors axis true) axis false = colors.
Proof.
  split.
  - destruct p as [[x y] z]. unfold rotatePosition.
    switch_axis axis; now rewrite ?Qopp_opp_eq.
  - destruct (length_six _ Hsix) as (a & b & c & d & e & f & ->).
    unfold rotateColors. switch_axis axis; reflexivity.
Qed.

Lemma rotate_round_trip_witness :
  rotatePosition (rotatePosition (1, 0, -(1)) "y" true) "y" false = (1, 0, -(1)) /\
  rotateColors (rotateColors (solvedColors 1 0 (-1)) "y" true) "y" false
  = solvedColors 1 0 (-1).
Proof. apply (rotate_round_trip (1, 0, -(1)) (solvedColors 1 0 (-1)) "y"). reflexivity. Defined.

Lemma cycle4_lookup (a : list Js.value) (i0 i1 i2 i3 : nat) :
  length a = 6%nat ->
  (i0, i1, i2, i3) ∈ [(2, 4, 3, 5); (2, 5, 3, 4); (0, 4, 1, 5);
                      (0, 5, 1, 4); (0, 2, 1, 3); (0, 3, 1, 2)]%nat ->
  length (cycle4 a i0 i1 i2 i3) = 6%nat /\
  forall i, (i < 6)%nat -> cycle4 a i0 i1 i2 i3 !! i = a !! cycleSource i0 i1 i2 i3 i.
Proof.
  intros Hsix Hin.
  destruct (length_six _ Hsix) as (c0 & c1 & c2 & c3 & c4 & c5 & ->).
  rewrite !elem_of_cons, elem_of_nil in Hin.
  destruct Hin as [H|[H|[H|[H|[H|[H|[]]]]]]]; injection H as -> -> -> ->;
    (split; [reflexivity|]); intros i Hi;
    do 6 (destruct i as [|i]; [reflexivity|]); lia.
Qed.

Example rotateColors_x_clockwise :
  rotateColors [Js.str "R"; Js.str "L"; Js.str "U"; Js.str "D"; Js.str "F"; Js.str "B"]
               "x" true
  = [Js.str "R"; Js.str "L"; Js.str "B"; Js.str "F"; Js.str "U"; Js.str "D"].
Proof. reflexivity. Qed.

(** On an array with fewer than six entries the assignments extend it. *)
Example rotateColors_short_array :
  rotateColors [Js.str "R"; Js.str "L"; Js.str "U"] "x" true
  = [Js.str "R"; Js.str "L"; Js.undefined; Js.undefined; Js.str "U"; Js.undefined].
Proof. reflexivity. Qed.

Lemma rotateColors_lookup (colors : list Js.value) (axis : string) (cw : bool) :
  length colors = 6%nat ->
  length (rotateColors colors axis cw) = 6%nat /\
  forall i, (i < 6)%nat ->
    rotateColors colors axis cw !! i = colors !! slotSource axis cw i.
Proof.
  intros Hsix. unfold rotateColors, slotSource.
  switch_axis axis; [destruct cw| destruct cw| destruct cw| now split]; simpl;
    apply cycle4_lookup; trivial;
    rewrite !elem_of_cons; tauto.
Qed.

(** C5: on six-element arrays [rotateColors] moves contents between
    slots by one fixed slot permutation per axis and direction; that
    permutation fixes the two slots parallel to the axis and is a single
    4-cycle on the four slots perpendicular to it. *)
Theorem rotateColors_four_cycle (axis : string) (cw : bool) (Haxis : axis ∈ axes) :
  exists src : nat -> nat,
    (forall colors : list Js.value, length colors = 6%nat ->
       length (rotateColors colors axis cw) = 6%nat /\
       forall i, (i < 6)%nat -> rotateColors colors axis cw !! i = colors !! src i) /\
    (forall i, i ∈ parallelSlots axis -> src i = i) /\
    (forall i, i ∈ perpendicularSlots axis ->
       src i ∈ perpendicularSlots axis /\
       src i <> i /\ src (src i) <> i /\ src (src (src i)) <> i /\
       src (src (src (src i))) = i).
Proof.
  exists (slotSource axis cw). split; [|split].
  - intros colors Hsix. now apply rotateColors_lookup.
  - destruct (elem_of_axes _ Haxis) as [-> | [-> | ->]]; destruct cw;
      intros i; unfold parallelSlots, slotSource; simpl;
      rewrite !elem_of_cons, elem_of_nil;
      intros [-> | [-> | []]]; reflexivity.
  - destruct (elem_of_axes _ Haxis) as [-> | [-> | ->]]; destruct cw;
      intros i; unfold perpendicularSlots, slotSource; simpl;
      rewrite !elem_of_cons, elem_of_nil;
      intros [-> | [-> | [-> | [-> | []]]]]; unfold cycleSource; cbn [Nat.eqb];
      (split; [intuition congruence|]); repeat split; discriminate.
Qed.

Lemma rotateColors_four_cycle_witness :
  exists src : nat -> nat,
    (forall colors : list Js.value, length colors = 6%nat ->
       length (rotateColors colors "z" true) = 6%nat /\
       forall i, (i < 6)%nat -> rotateColors colors "z" true !! i = colors !! src i) /\
    (forall i, i ∈ parallelSlots "z" -> src i = i) /\
    (forall i, i ∈ perpendicularSlots "z" ->
       src i ∈ perpendicularSlots "z" /\
       src i <> i /\ src (src i) <> i /\ src (src (src i)) <> i /\
       src (src (src (src i))) = i).
Proof. apply (rotateColors_four_cycle "z" true). unfold axes. rewrite !elem_of_cons. tauto. Defined.

(** C10: on six-element arrays the result of [rotateColors] is a
    rearrangement of its argument: every colour occurs in the result as
    many times as in the argument. *)
Theorem rotateColors_permutation (colors : list Js.value) (axis : string) (cw : bool)
    (Hsix : length colors = 6%nat) :
  rotateColors colors axis cw ≡ₚ colors.
Proof.
  destruct (length_six _ Hsix) as (a & b & c & d & e & f & ->).
  unfold rotateColors.
  switch_axis axis; [destruct cw| destruct cw| destruct cw| reflexivity];
    cbn; solve_Permutation.
Qed.

Lemma rotateColors_permutation_witness :
  rotateColors (solvedColors 1 1 1) "x" true ≡ₚ solvedColors 1 1 1.
Proof. apply (rotateColors_permutation (solvedColors 1 1 1) "x" true). reflexivity. Defined.

(** ** Updating the selected pieces in place *)

Section FoldAlter.

Context {A S : Type} (idx : S -> nat) (g : S -> A -> A).

Lemma foldl_alter_notin (sel : list S) (st : list A) (i : nat) :
  i ∉ idx <$> sel -> foldl (fun st s => alter (g s) (idx s) st) st sel !! i = st !! i.
Proof.
  revert st. induction sel as [|s sel IH]; intros st Hi; [reflexivity|].
  rewrite fmap_cons, not_elem_of_cons in Hi. destruct Hi as [Hne Hi].
  simpl. rewrite IH by assumption.
  now apply list_lookup_alter_ne.
Qed.

Lemma foldl_alter_in (sel : list S) (st : list A) (s : S) :
  NoDup (idx <$> sel) -> s ∈ sel ->
  (forall s', s' ∈ sel -> idx s' = idx s -> s' = s) ->
  foldl (fun st s => alter (g s) (idx s) st) st sel !! idx s = g s <$> st !! idx s.
Proof.
  revert st. induction sel as [|s0 sel IH]; intros st Hnd Hin Huniq.
  - now apply elem_of_nil in Hin.
  - rewrite fmap_cons, NoDup_cons in Hnd. destruct Hnd as [Hnotin Hnd].
    simpl. destruct (decide (idx s0 = idx s)) as [Heq|Hne].
    + assert (s0 = s) as -> by (apply Huniq; [left|assumption]).
      rewrite foldl_alter_notin by assumption.
      apply list_lookup_alter_eq.
    + apply elem_of_cons in Hin. destruct Hin as [->|Hin]; [congruence|].
      rewrite IH; trivial.
      * now rewrite list_lookup_alter_ne.
      * intros s' Hs'. apply Huniq. now right.
Qed.

End FoldAlter.

Lemma selectPieces_elem (f : Face) (k : nat) (st : list CubePieceState)
    (i : nat) (pos rot : vec3) :
  (i, pos, rot) ∈ selectPieces f k st <->
  exists p, (k <= i)%nat /\ st !! (i - k)%nat = Some p /\
            shouldRotate f p = true /\ pos = position p /\ rot = rotation p.
Proof.
  revert k. induction st as [|q st IH]; intros k; simpl.
  - rewrite elem_of_nil. split; [tauto|]. intros (p & _ & H & _). discriminate H.
  - assert (Hrest : (i, pos, rot) ∈ selectPieces f (S k) st <->
                    exists p, (k < i)%nat /\ st !! (i - S k)%nat = Some p /\
                      shouldRotate f p = true /\ pos = position p /\ rot = rotation p).
    { rewrite IH. split; intros (p & ? & ?); exists p; (split; [lia|assumption]). }
    destruct (shouldRotate f q) eqn:Hq.
    + rewrite elem_of_cons, Hrest. split.
      * intros [Heq|(p & Hlt & Hp & Hrot)].
        -- injection Heq as -> -> ->. exists q. rewrite Nat.sub_diag. auto.
        -- exists p. split; [lia|]. split; [|assumption].
           replace (i - k)%nat with (S (i - S k)) by lia. exact Hp.
      * intros (p & Hle & Hp & Hrot).
        destruct (decide (i = k)) as [->|Hne].
        -- rewrite Nat.sub_diag in Hp. injection Hp as ->.
           left. destruct Hrot as (_ & -> & ->). reflexivity.
        -- right. exists p. split; [lia|]. split; [|assumption].
           replace (i - k)%nat with (S (i - S k)) in Hp by lia. exact Hp.
    + rewrite Hrest. split.
      * intros (p & Hlt & Hp & Hrot). exists p. split; [lia|]. split; [|assumption].
        replace (i - k)%nat with (S (i - S k)) by lia. exact Hp.
      * intros (p & Hle & Hp & Hrot).
        destruct (decide (i = k)) as [->|Hne].
        -- rewrite Nat.sub_diag in Hp. injection Hp as ->.
           destruct Hrot as [Hrot _]. congruence.
        -- exists p. split; [lia|]. split; [|assumption].
           replace (i - k)%nat with (S (i - S k)) in Hp by lia. exact Hp.
Qed.

Lemma selectPieces_NoDup (f : Face) (k : nat) (st : list CubePieceState) :
  NoDup ((fun s : nat * vec3 * vec3 => s.1.1) <$> selectPieces f k st).
Proof.
  revert k. induction st as [|q st IH]; intros k; simpl; [constructor|].
  destruct (shouldRotate f q); [|apply IH].
  rewrite fmap_cons. apply NoDup_cons. split; [|apply IH].
  intros Hin. apply list_elem_of_fmap in Hin.
  destruct Hin as ([[i pos] rot] & Hi & Hin). simpl in Hi. subst i.
  apply selectPieces_elem in Hin. destruct Hin as (_ & Hle & _). lia.
Qed.

(** What the [forEach] over the pieces selected in [st] leaves at index
    [i] of the array [st'] it updates. *)
Lemma forEach_selected_lookup (g : nat * vec3 * vec3 -> CubePieceState -> CubePieceState)
    (f : Face) (st st' : list CubePieceState) (i : nat) :
  foldl (fun acc s => alter (g s) s.1.1 acc) st' (selectPieces f 0 st) !! i =
  match st !! i with
  | Some p =>
      if shouldRotate f p then g (i, position p, rotation p) <$> st' !! i
      else st' !! i
  | None => st' !! i
  end.
Proof.
  destruct (st !! i) as [p|] eqn:Hp; [destruct (shouldRotate f p) eqn:Hsel|].
  - apply (foldl_alter_in (fun s : nat * vec3 * vec3 => s.1.1) g
             (selectPieces f 0 st) st' (i, position p, rotation p)).
    + apply selectPieces_NoDup.
    + apply selectPieces_elem. exists p. rewrite Nat.sub_0_r. auto with lia.
    + intros [[j pos] rot] Hin Hj. simpl in Hj. subst j.
      apply selectPieces_elem in Hin. destruct Hin as (p' & _ & Hp' & _ & -> & ->).
      rewrite Nat.sub_0_r in Hp'. congruence.
  - apply (foldl_alter_notin (fun s : nat * vec3 * vec3 => s.1.1) g).
    intros Hin. apply list_elem_of_fmap in Hin.
    destruct Hin as ([[j pos] rot] & Hj & Hin). simpl in Hj. subst j.
    apply selectPieces_elem in Hin. destruct Hin as (p' & _ & Hp' & Hsel' & _).
    rewrite Nat.sub_0_r in Hp'. congruence.
  - apply (foldl_alter_notin (fun s : nat * vec3 * vec3 => s.1.1) g).
    intros Hin. apply list_elem_of_fmap in Hin.
    destruct Hin as ([[j pos] rot] & Hj & Hin). simpl in Hj. subst j.
    apply selectPieces_elem in Hin. destruct Hin as (p' & _ & Hp' & _).
    rewrite Nat.sub_0_r in Hp'. congruence.
Qed.

(** ** One turn, from the request to the commit *)

Lemma sameButMotion_refl (f : Face) (st : list CubePieceState) :
  sameButMotion f st st.
Proof. apply Forall_Forall2_diag, Forall_forall. auto. Qed.

Lemma commitPiece_motion (f : Face) (cw : bool) (orig : vec3) (p p' : CubePieceState) :
  id p' = id p -> colors p' = colors p ->
  animationRotation p' = animationRotation p ->
  commitPiece f cw orig p' = commitPiece f cw orig p.
Proof.
  intros Hid Hcol Hani. unfold commitPiece, set_rotation, set_colors, set_position.
  simpl. now rewrite Hid, Hcol, Hani.
Qed.

(** Committing after any number of frames gives the state the turn is
    defined to produce from the state it started on. *)
Lemma commitPieces_after_motion (f : Face) (cw : bool) (st st' : list CubePieceState) :
  sameButMotion f st st' ->
  commitPieces f cw (selectPieces f 0 st) st' = committedTurn f cw st.
Proof.
  intros Hrel. apply list_eq. intros i.
  unfold commitPieces, committedTurn, committedPiece.
  rewrite (forEach_selected_lookup (fun s => commitPiece f cw s.1.2)).
  rewrite list_lookup_fmap.
  apply Forall2_lookup with (i := i) in Hrel.
  destruct Hrel as [p p' (Hid & Hcol & Hani & Hsame)|]; simpl; [|reflexivity].
  destruct (shouldRotate f p).
  - f_equal. now apply commitPiece_motion.
  - now rewrite Hsame.
Qed.

Section AnimateFacts.

Variables (Math_cos Math_sin : Q -> Q) (Math_PI : Q).

Lemma framePiece_motion (f : Face) (angle : Q) (orig origRot : vec3)
    (p : CubePieceState) :
  let p' := framePiece Math_cos Math_sin f angle orig origRot p in
  id p' = id p /\ colors p' = colors p /\
  animationRotation p' = animationRotation p.
Proof.
  destruct orig as [[ox oy] oz], origRot as [[rx ry] rz].
  destruct f; simpl; auto.
Qed.

Lemma framePieces_motion (f : Face) (angle : Q) (st st' : list CubePieceState) :
  sameButMotion f st st' ->
  sameButMotion f st
    (framePieces Math_cos Math_sin f angle (selectPieces f 0 st) st').
Proof.
  intros Hrel. apply Forall2_lookup. intros i. unfold framePieces.
  rewrite (forEach_selected_lookup
             (fun s => framePiece Math_cos Math_sin f angle s.1.2 s.2)).
  apply Forall2_lookup with (i := i) in Hrel.
  destruct Hrel as [p p' (Hid & Hcol & Hani & Hsame)|]; [|constructor].
  destruct (shouldRotate f p) eqn:Hsel; simpl.
  - constructor.
    destruct (framePiece_motion f angle (position p) (rotation p) p')
      as (Hid' & Hcol' & Hani').
    repeat split; try congruence.
  - constructor. auto.
Qed.

(** A frame either leaves the turn under way or completes it. *)
Lemma animate_turning (f : Face) (cw : bool) (start t : Q)
    (st0 : list CubePieceState) (sh : bool) (e : Engine) :
  turning f cw start st0 sh e ->
  turning f cw start st0 sh (animate Math_cos Math_sin Math_PI t e) \/
  animate Math_cos Math_sin Math_PI t e = turnDone f cw st0 sh.
Proof.
  intros (st & Hrel & ->). unfold animate. simpl.
  destruct (Qle_bool 1 _); simpl.
  - right. unfold turnDone. f_equal. now apply commitPieces_after_motion.
  - left. eexists. split; [|reflexivity]. now apply framePieces_motion.
Qed.

(** A frame at or after the end of the animation's duration completes
    the turn. *)
Lemma animate_completes (f : Face) (cw : bool) (start t : Q)
    (st0 : list CubePieceState) (sh : bool) (e : Engine) :
  turning f cw start st0 sh e ->
  start + animationDuration <= t ->
  animate Math_cos Math_sin Math_PI t e = turnDone f cw st0 sh.
Proof.
  intros (st & Hrel & ->) Hlate. unfold animate. simpl.
  assert (Hfull : 1 <= (t - start) / animationDuration).
  { apply Qle_shift_div_l; [reflexivity|].
    unfold animationDuration in *. lra. }
  assert (Hprog : Qle_bool 1 (Js.Math_min ((t - start) / animationDuration) 1) = true).
  { unfold Js.Math_min. destruct (Qle_bool _ 1); now apply Qle_bool_iff. }
  rewrite Hprog. simpl.
  unfold turnDone. f_equal. now apply commitPieces_after_motion.
Qed.

Lemma animate_turnDone (f : Face) (cw : bool) (t : Q)
    (st0 : list CubePieceState) (sh : bool) :
  animate Math_cos Math_sin Math_PI t (turnDone f cw st0 sh) = turnDone f cw st0 sh.
Proof. reflexivity. Qed.

Lemma rotateFace_turning (f : Face) (cw : bool) (start : Q) (e : Engine) :
  isAnimating e = false ->
  turning f cw start (cubeState e) (isShuffling e) (rotateFace f cw start e).
Proof.
  intros Hidle. unfold rotateFace. rewrite Hidle.
  exists (cubeState e). split; [apply sameButMotion_refl|reflexivity].
Qed.

Lemma frames_turning (f : Face) (cw : bool) (start : Q) (frames : list Q)
    (st0 : list CubePieceState) (sh : bool) (e : Engine) :
  turning f cw start st0 sh e \/ e = turnDone f cw st0 sh ->
  let e' := foldl (fun e t => animate Math_cos Math_sin Math_PI t e) e frames in
  turning f cw start st0 sh e' \/ e' = turnDone f cw st0 sh.
Proof.
  revert e. induction frames as [|t frames IH]; intros e He; simpl; [exact He|].
  apply IH. destruct He as [He| ->].
  - now apply animate_turning.
  - right. apply animate_turnDone.
Qed.

(** An awaited turn, whatever frames ran in between, ends idle on the
    committed state. *)
Lemma awaitedTurn_result (f : Face) (cw : bool) (s : Schedule) (e : Engine) :
  isAnimating e = false -> completes s ->
  awaitedTurn Math_cos Math_sin Math_PI f cw s e
  = turnDone f cw (cubeState e) (isShuffling e).
Proof.
  intros Hidle Hs. unfold awaitedTurn, runTurn. rewrite foldl_app. simpl.
  destruct (frames_turning f cw (begins s) (frameTimes s) (cubeState e)
              (isShuffling e) (rotateFace f cw (begins s) e)) as [Hrun| ->].
  - left. now apply rotateFace_turning.
  - now apply animate_completes with (start := begins s).
  - apply animate_turnDone.
Qed.

End AnimateFacts.

(** ** Four quarter turns *)

Lemma shouldRotate_commitPiece (f : Face) (cw : bool) (p : CubePieceState) :
  shouldRotate f (commitPiece f cw (position p) p) = shouldRotate f p.
Proof.
  destruct p as [i [[x y] z] cols rot ani]. destruct f, cw; reflexivity.
Qed.

Lemma restingPiece_commitPiece (f : Face) (cw : bool) (p : CubePieceState) :
  restingPiece p -> restingPiece (commitPiece f cw (position p) p).
Proof.
  intros [_ Hsix]. split; [reflexivity|]. simpl.
  now apply rotateColors_lookup.
Qed.

Lemma commitPiece_four (f : Face) (cw : bool) (p : CubePieceState) :
  restingPiece p ->
  let turn q := commitPiece f cw (position q) q in
  turn (turn (turn (turn p))) = p.
Proof.
  destruct p as [i [[x y] z] cols rot ani]. intros [Hrot Hsix]. simpl in Hrot, Hsix.
  destruct (length_six _ Hsix) as (c0 & c1 & c2 & c3 & c4 & c5 & ->). subst rot.
  destruct f, cw; cbv [commitPiece set_position set_colors set_rotation
                       position colors rotation id animationRotation
                       getAxisForFace colorClockwise negb];
    simpl; now rewrite !Qopp_opp_eq.
Qed.

Lemma committedPiece_four (f : Face) (cw : bool) (p : CubePieceState) :
  restingPiece p ->
  committedPiece f cw (committedPiece f cw (committedPiece f cw (committedPiece f cw p)))
  = p.
Proof.
  intros Hrest. destruct (shouldRotate f p) eqn:Hsel.
  - assert (Hstep : forall q, shouldRotate f q = true ->
              committedPiece f cw q = commitPiece f cw (position q) q /\
              shouldRotate f (commitPiece f cw (position q) q) = true).
    { intros q Hq. unfold committedPiece. rewrite Hq. split; [reflexivity|].
      now rewrite shouldRotate_commitPiece. }
    destruct (Hstep p Hsel) as [-> Hsel1].
    destruct (Hstep _ Hsel1) as [-> Hsel2].
    destruct (Hstep _ Hsel2) as [-> Hsel3].
    destruct (Hstep _ Hsel3) as [-> _].
    exact (commitPiece_four f cw p Hrest).
  - assert (Hid : committedPiece f cw p = p).
    { unfold committedPiece. now rewrite Hsel. }
    now rewrite !Hid.
Qed.

Lemma committedTurn_four (f : Face) (cw : bool) (st : list CubePieceState) :
  Forall restingPiece st ->
  committedTurn f cw (committedTurn f cw (committedTurn f cw (committedTurn f cw st)))
  = st.
Proof.
  intros Hrest. unfold committedTurn. rewrite <- !list_fmap_compose.
  induction Hrest as [|p st Hp _ IH]; [reflexivity|].
  rewrite fmap_cons, IH. f_equal. now apply committedPiece_four.
Qed.

(** C1: on a cube state at rest, four awaited turns of the same face in
    the same direction bring the engine back to the state before the first
    one, positions and facelet colours included, whatever frames the
    animations went through. *)
Theorem four_turns_restore (Math_cos Math_sin : Q -> Q) (Math_PI : Q)
    (f : Face) (cw : bool) (s1 s2 s3 s4 : Schedule) (e : Engine)
    (Hidle : isAnimating e = false) (Hnone : inFlight e = None)
    (Hrest : Forall restingPiece (cubeState e))
    (H1 : completes s1) (H2 : completes s2) (H3 : completes s3) (H4 : completes s4) :
  let turn := awaitedTurn Math_cos Math_sin Math_PI f cw in
  turn s4 (turn s3 (turn s2 (turn s1 e))) = e.
Proof.
  simpl. rewrite (awaitedTurn_result _ _ _ f cw s1 e) by assumption.
  repeat match goal with
         | |- context [awaitedTurn ?c ?s ?pi f cw ?sch (turnDone ?f' ?cw' ?st ?sh)] =>
             rewrite (awaitedTurn_result c s pi f cw sch (turnDone f' cw' st sh))
               by (assumption || reflexivity)
         end.
  unfold turnDone. simpl. rewrite committedTurn_four by assumption.
  destruct e as [st an sh fl]. simpl in *. now subst.
Qed.

Lemma four_turns_restore_witness :
  let turn := awaitedTurn (fun a => 1 - a * a / 2) (fun a => a) (355 # 113) front true in
  let s := {| begins := 0; frameTimes := [100; 250]; ends := 500 |} in
  turn s (turn s (turn s (turn s initialEngine))) = initialEngine.
Proof.
  apply (four_turns_restore (fun a => 1 - a * a / 2) (fun a => a) (355 # 113) front true
           {| begins := 0; frameTimes := [100; 250]; ends := 500 |}
           {| begins := 0; frameTimes := [100; 250]; ends := 500 |}
           {| begins := 0; frameTimes := [100; 250]; ends := 500 |}
           {| begins := 0; frameTimes := [100; 250]; ends := 500 |}
           initialEngine).
  - reflexivity.
  - reflexivity.
  - repeat constructor.
  - unfold completes, Qle. simpl. lia.
  - unfold completes, Qle. simpl. lia.
  - unfold completes, Qle. simpl. lia.
  - unfold completes, Qle. simpl. lia.
Defined.

(** ** The commit of a turn, piece by piece *)

Lemma awaitedTurn_lookup (Math_cos Math_sin : Q -> Q) (Math_PI : Q)
    (f : Face) (cw : bool) (s : Schedule) (e : Engine) (i : nat) :
  isAnimating e = false -> completes s ->
  cubeState (awaitedTurn Math_cos Math_sin Math_PI f cw s e) !! i
  = committedPiece f cw <$> cubeState e !! i.
Proof.
  intros Hidle Hs. rewrite awaitedTurn_result by assumption.
  apply list_lookup_fmap.
Qed.

(** C4: when a turn is committed, the colours of every piece of the layer
    are rotated about the face's axis in the direction opposite to the
    [clockwise] flag for the top and bottom faces, and in the direction of
    the flag for the four other faces. *)
Theorem top_bottom_color_direction (Math_cos Math_sin : Q -> Q) (Math_PI : Q)
    (f : Face) (cw : bool) (s : Schedule) (e : Engine) (i : nat) (p : CubePieceState)
    (Hidle : isAnimating e = false) (Hs : completes s)
    (Hp : cubeState e !! i = Some p) (Hsel : shouldRotate f p = true) :
  let direction := if decide (f = top \/ f = bottom) then negb cw else cw in
  colorClockwise f cw = direction /\
  colors <$> cubeState (awaitedTurn Math_cos Math_sin Math_PI f cw s e) !! i
  = Some (rotateColors (colors p) (getAxisForFace f) direction).
Proof.
  simpl. assert (Hdir : colorClockwise f cw
                        = if decide (f = top \/ f = bottom) then negb cw else cw).
  { destruct f; unfold colorClockwise; case_decide as Hf; try reflexivity;
      solve [destruct Hf; discriminate | exfalso; apply Hf; auto]. }
  split; [exact Hdir|].
  rewrite awaitedTurn_lookup, Hp by assumption. simpl.
  unfold committedPiece. rewrite Hsel. simpl. now rewrite Hdir.
Qed.

Lemma top_bottom_color_direction_witness :
  let s := {| begins := 0; frameTimes := [16; 33]; ends := 516 |} in
  colorClockwise top true = false /\
  colors <$> cubeState (awaitedTurn (fun a => 1 - a * a / 2) (fun a => a) (355 # 113)
                          top true s initialEngine) !! 6%nat
  = Some (rotateColors (colors (initialPiece (-1) 1 (-1))) (getAxisForFace top) false).
Proof.
  apply (top_bottom_color_direction (fun a => 1 - a * a / 2) (fun a => a) (355 # 113)
           top true {| begins := 0; frameTimes := [16; 33]; ends := 516 |}
           initialEngine 6 (initialPiece (-1) 1 (-1))).
  - reflexivity.
  - unfold completes, Qle. simpl. lia.
  - reflexivity.
  - reflexivity.
Defined.

(** ** The face selector *)

Lemma Math_round_spec (q : Q) (n : Z) :
  Js.Math_round q = n <-> inject_Z n - (1 # 2) <= q /\ q < inject_Z n + (1 # 2).
Proof.
  unfold Js.Math_round. split.
  - intros <-. pose proof (Qfloor_le (q + (1 # 2))) as Hlo.
    pose proof (Qlt_floor (q + (1 # 2))) as Hhi.
    rewrite inject_Z_plus in Hhi. change (inject_Z 1) with 1 in Hhi. split; lra.
  - intros [Hlo Hhi]. apply Z.le_antisymm.
    + apply Z.lt_succ_r. rewrite Zlt_Qlt.
      apply Qle_lt_trans with (q + (1 # 2)); [apply Qfloor_le|].
      unfold Z.succ. rewrite inject_Z_plus. change (inject_Z 1) with 1. lra.
    + rewrite <- (Qfloor_Z n). apply Qfloor_resp_le. lra.
Qed.

Lemma shouldRotate_spec (f : Face) (p : CubePieceState) :
  shouldRotate f p = true <->
  Js.Math_round (axisCoordinate (getAxisForFace f) (position p)) = layerValue f.
Proof.
  unfold shouldRotate. destruct (position p) as [[x y] z].
  destruct f; simpl; apply Z.eqb_eq.
Qed.

Lemma rotatingPieces_spec (f : Face) (st : list CubePieceState) (i : nat) :
  i ∈ (fun s : nat * vec3 * vec3 => s.1.1) <$> selectPieces f 0 st <->
  exists p, st !! i = Some p /\ shouldRotate f p = true.
Proof.
  rewrite list_elem_of_fmap. split.
  - intros ([[j pos] rot] & -> & Hin). simpl.
    apply selectPieces_elem in Hin. destruct Hin as (p & _ & Hp & Hsel & _).
    rewrite Nat.sub_0_r in Hp. eauto.
  - intros (p & Hp & Hsel). exists (i, position p, rotation p). split; [reflexivity|].
    apply selectPieces_elem. exists p. rewrite Nat.sub_0_r. auto with lia.
Qed.

Example front_layer_indices :
  (fun s : nat * vec3 * vec3 => s.1.1) <$> selectPieces front 0 initializeCube
  = [2; 5; 8; 11; 14; 17; 20; 23; 26]%nat.
Proof. reflexivity. Qed.

Example centre_never_selected (f : Face) :
  shouldRotate f (initialPiece 0 0 0) = false.
Proof. now destruct f. Qed.

(** A position reached in the middle of an animation still belongs to
    the layer it rounds to. *)
Example mid_animation_selected :
  shouldRotate front (set_position (7 # 10, - (7 # 10), 9 # 10) (initialPiece 1 0 1))
  = true.
Proof. reflexivity. Qed.

(** C6: the pieces a turn request selects are exactly the pieces whose
    coordinate on the face's axis rounds to the face's layer value, that
    is, lies within one half of it; the coordinate need not be equal to
    the layer value. *)
Theorem face_selection_by_rounding (f : Face) (cw : bool) (now : Q) (e : Engine)
    (Hidle : isAnimating e = false) :
  exists a,
    inFlight (rotateFace f cw now e) = Some a /\
    forall i,
      (i ∈ rotatingPieces a <->
       exists p, cubeState e !! i = Some p /\
         Js.Math_round (axisCoordinate (getAxisForFace f) (position p)) = layerValue f) /\
      (i ∈ rotatingPieces a <->
       exists p, cubeState e !! i = Some p /\
         inject_Z (layerValue f) - (1 # 2)
           <= axisCoordinate (getAxisForFace f) (position p) /\
         axisCoordinate (getAxisForFace f) (position p)
           < inject_Z (layerValue f) + (1 # 2)).
Proof.
  unfold rotateFace. rewrite Hidle. eexists. split; [reflexivity|].
  intros i. unfold rotatingPieces. simpl. rewrite rotatingPieces_spec.
  split; (split; intros (p & Hp & Hsel); exists p; (split; [exact Hp|])).
  - now apply shouldRotate_spec.
  - now apply shouldRotate_spec.
  - now apply Math_round_spec, shouldRotate_spec.
  - now apply shouldRotate_spec, Math_round_spec.
Qed.

Lemma face_selection_by_rounding_witness :
  exists a,
    inFlight (rotateFace front true 0 initialEngine) = Some a /\
    forall i,
      (i ∈ rotatingPieces a <->
       exists p, cubeState initialEngine !! i = Some p /\
         Js.Math_round (axisCoordinate (getAxisForFace front) (position p))
         = layerValue front) /\
      (i ∈ rotatingPieces a <->
       exists p, cubeState initialEngine !! i = Some p /\
         inject_Z (layerValue front) - (1 # 2)
           <= axisCoordinate (getAxisForFace front) (position p) /\
         axisCoordinate (getAxisForFace front) (position p)
           < inject_Z (layerValue front) + (1 # 2)).
Proof. apply (face_selection_by_rounding front true 0 initialEngine). reflexivity. Defined.

(** ** The entry guard *)

(** Through the closure of the latest render, a call of [rotateFace]
    made while a turn is animated changes nothing. *)
Lemma rotateFace_latest_closure (f : Face) (cw : bool) (now : Q) (s : Scene.State) :
  Scene.isAnimating s = true ->
  Scene.rotateFace (Scene.latestRotateFace s) f cw now s = s.
Proof. intros Hbusy. unfold Scene.rotateFace. simpl. now rewrite Hbusy. Qed.

(** Through a closure that holds [isAnimating] at false, a call of
    [rotateFace] requests an animation whatever the state variable is. *)
Lemma rotateFace_held_closure (c : Scene.Closure) (f : Face) (cw : bool) (now : Q)
    (s : Scene.State) :
  Scene.capturedIsAnimating c = false ->
  Scene.isAnimating (Scene.rotateFace c f cw now s) = true /\
  length (Scene.frameRequests (Scene.rotateFace c f cw now s))
  = S (length (Scene.frameRequests s)).
Proof.
  intros Hheld. unfold Scene.rotateFace. rewrite Hheld. simpl.
  split; [reflexivity|]. rewrite length_app. simpl. lia.
Qed.

(** One turn run through the latest closure ends in the state the engine
    computes for it. *)
Example scene_turn_agrees_with_engine (Math_cos Math_sin : Q -> Q) (Math_PI : Q) :
  Scene.rendered
    (Scene.runFrame Math_cos Math_sin Math_PI 520
       (Scene.runFrame Math_cos Math_sin Math_PI 40
          (Scene.rotateFace (Scene.latestRotateFace Scene.initialState)
                            right false 0 Scene.initialState)))
  = cubeState (awaitedTurn Math_cos Math_sin Math_PI right false
                 {| begins := 0; frameTimes := [40]; ends := 520 |} initialEngine).
Proof. vm_compute. reflexivity. Qed.

(** C8: the guard of [rotateFace] reads the [isAnimating] its closure
    holds, not the state variable.  The timers of a shuffle all call the
    [rotateFace] of the render in which the shuffle began, where
    [isAnimating] is false.  Here the first two moves of a shuffle are
    front and top, both clockwise, and no animation frame runs between
    the timer of the first (at 0 ms) and the timer of the second (at
    600 ms).  After the first call a turn is being animated and
    [isAnimating] is true; a call through the latest closure is rejected
    and changes nothing, but the call of the second timer is not: it
    requests a second animation.  When the next frame has ended both
    turns, the pieces that began at (-1, 1, 1) and at (1, -1, 1) are both
    in the cell (1, 1, 1), and the cube no longer has one piece per
    cell. *)
Theorem shuffle_turn_ignores_guard (Math_cos Math_sin : Q -> Q) (Math_PI : Q) :
  let held := Scene.latestRotateFace Scene.initialState in
  let s1 := Scene.rotateFace held front true 0 Scene.initialState in
  let s2 := Scene.rotateFace held top true 600 s1 in
  let s3 := Scene.runFrame Math_cos Math_sin Math_PI 1200 s2 in
  Scene.isAnimating s1 = true /\
  length (Scene.frameRequests s1) = 1%nat /\
  Scene.rotateFace (Scene.latestRotateFace s1) top true 600 s1 = s1 /\
  s2 <> s1 /\
  length (Scene.frameRequests s2) = 2%nat /\
  Scene.frameRequests s3 = [] /\
  (position <$> Scene.rendered Scene.initialState) !! 8%nat = Some (- (1), 1, 1) /\
  (position <$> Scene.rendered Scene.initialState) !! 20%nat = Some (1, - (1), 1) /\
  (position <$> Scene.rendered s3) !! 8%nat = Some (1, 1, 1) /\
  (position <$> Scene.rendered s3) !! 20%nat = Some (1, 1, 1) /\
  ~ onePiecePerCell (Scene.rendered s3).
Proof.
  intros held s1 s2 s3.
  split; [reflexivity|]. split; [reflexivity|]. split; [reflexivity|].
  split; [intros Heq; apply (f_equal (fun s => length (Scene.frameRequests s))) in Heq;
          discriminate Heq|].
  split; [reflexivity|]. split; [reflexivity|].
  split; [reflexivity|]. split; [reflexivity|].
  split; [reflexivity|]. split; [reflexivity|].
  unfold onePiecePerCell. intros Hperm.
  apply (bool_decide_pack _) in Hperm. vm_compute in Hperm. exact Hperm.
Qed.

(** The same with every frame on time, when a button of the control
    panel is pressed during a shuffle: the first move of the shuffle has
    ended, the button starts a turn of the top face at 550 ms through the
    latest closure, and the timer of the second move, at 600 ms, starts a
    turn of the right face on top of it. *)
Example button_turn_during_shuffle (Math_cos Math_sin : Q -> Q) (Math_PI : Q) :
  let held := Scene.latestRotateFace Scene.initialState in
  let s1 := Scene.rotateFace held front true 0 Scene.initialState in
  let s2 := Scene.runFrame Math_cos Math_sin Math_PI 510 s1 in
  let s3 := Scene.rotateFace (Scene.latestRotateFace s2) top true 550 s2 in
  let s4 := Scene.rotateFace held right true 600 s3 in
  Scene.isAnimating s2 = false /\
  Scene.isAnimating s3 = true /\
  length (Scene.frameRequests s3) = 1%nat /\
  length (Scene.frameRequests s4) = 2%nat.
Proof. vm_compute. repeat split; reflexivity. Qed.

(** ** Initialisation and reset *)

Lemma elem_of_loopRange (x : Z) : x ∈ loopRange <-> (-1 <= x <= 1)%Z.
Proof. unfold loopRange. rewrite elem_of_seqZ. lia. Qed.

Lemma elem_of_initializeCube (p : CubePieceState) :
  p ∈ initializeCube <->
  exists x y z, (-1 <= x <= 1)%Z /\ (-1 <= y <= 1)%Z /\ (-1 <= z <= 1)%Z /\
                p = initialPiece x y z.
Proof.
  unfold initializeCube. rewrite list_elem_of_bind. split.
  - intros (x & Hp & Hx). apply list_elem_of_bind in Hp. destruct Hp as (y & Hp & Hy).
    apply list_elem_of_bind in Hp. destruct Hp as (z & Hp & Hz).
    apply list_elem_of_singleton in Hp.
    exists x, y, z. rewrite <- !elem_of_loopRange. auto.
  - intros (x & y & z & Hx & Hy & Hz & ->).
    exists x. split; [|now apply elem_of_loopRange].
    apply list_elem_of_bind. exists y. split; [|now apply elem_of_loopRange].
    apply list_elem_of_bind. exists z. split; [|now apply elem_of_loopRange].
    now apply list_elem_of_singleton.
Qed.

Lemma initialPiece_solved (x y z : Z) :
  position (initialPiece x y z) = (inject_Z x, inject_Z y, inject_Z z) /\
  colors (initialPiece x y z) = solvedColors x y z /\
  rotation (initialPiece x y z) = zero3.
Proof.
  split; [reflexivity|]. split; [|reflexivity].
  unfold initialPiece, solvedColors, colors.
  repeat match goal with
         | |- context [(?a =? ?b)%Z] => destruct (Z.eqb_spec a b)
         end;
    repeat case_decide; try reflexivity; lia.
Qed.

Lemma initializeCube_positions_NoDup : NoDup (position <$> initializeCube).
Proof.
  assert (Hinj : Inj (=) (=) (fun t : Z * Z * Z =>
                               (inject_Z t.1.1, inject_Z t.1.2, inject_Z t.2))).
  { intros [[x y] z] [[x' y'] z'] H. simpl in H. unfold inject_Z in H. congruence. }
  change (position <$> initializeCube)
    with ((fun t : Z * Z * Z => (inject_Z t.1.1, inject_Z t.1.2, inject_Z t.2))
            <$> (x ← loopRange; y ← loopRange; z ← loopRange; [(x, y, z)])).
  apply (NoDup_fmap_2 _). apply (bool_decide_unpack _). vm_compute. exact I.
Qed.

(** C7: whatever the engine has been through, [resetCube] leaves the cube
    state of a fresh initialisation: 27 pieces, one at each coordinate
    triple of {-1,0,1}^3, each carrying the face colour on its outward
    sides, the neutral colour '#333333' on the others, and no rotation. *)
Theorem reset_restores_solved (e : Engine) :
  cubeState (resetCube e) = cubeState initialEngine /\
  length (cubeState (resetCube e)) = 27%nat /\
  NoDup (position <$> cubeState (resetCube e)) /\
  (forall x y z, (-1 <= x <= 1)%Z -> (-1 <= y <= 1)%Z -> (-1 <= z <= 1)%Z ->
     exists p, p ∈ cubeState (resetCube e) /\
               position p = (inject_Z x, inject_Z y, inject_Z z)) /\
  (forall p, p ∈ cubeState (resetCube e) ->
     exists x y z, (-1 <= x <= 1)%Z /\ (-1 <= y <= 1)%Z /\ (-1 <= z <= 1)%Z /\
       position p = (inject_Z x, inject_Z y, inject_Z z) /\
       colors p = solvedColors x y z /\
       rotation p = zero3).
Proof.
  change (cubeState (resetCube e)) with initializeCube.
  split; [reflexivity|]. split; [reflexivity|].
  split; [apply initializeCube_positions_NoDup|]. split.
  - intros x y z Hx Hy Hz. exists (initialPiece x y z). split; [|reflexivity].
    apply elem_of_initializeCube. eauto 10.
  - intros p Hp. apply elem_of_initializeCube in Hp.
    destruct Hp as (x & y & z & Hx & Hy & Hz & ->).
    exists x, y, z. pose proof (initialPiece_solved x y z). tauto.
Qed.

(** [resetCube] does not cancel a turn under way: the next frame puts
    the pieces of the turn back in the cube state. *)
Lemma reset_during_turn (Math_cos Math_sin : Q -> Q) (Math_PI : Q)
    (t : Q) (e : Engine) :
  inFlight e <> None ->
  cubeState (animate Math_cos Math_sin Math_PI t (resetCube e))
  = cubeState (animate Math_cos Math_sin Math_PI t e).
Proof.
  intros Hturn. unfold animate, resetCube. simpl.
  destruct (inFlight e) as [a|]; [|contradiction].
  now destruct (negb _).
Qed.

(** ** Doubles *)

Lemma roundHalfEven_floor (y : Q) :
  (Qfloor y <= Js.roundHalfEven y <= Qfloor y + 1)%Z.
Proof.
  unfold Js.roundHalfEven.
  destruct (negb _); [lia|]. destruct (Qle_bool _ _); [|lia].
  destruct (Z.even _); lia.
Qed.

Lemma roundHalfEven_ge (y : Q) (k : Z) :
  inject_Z k <= y -> (k <= Js.roundHalfEven y)%Z.
Proof.
  intros H. apply Qfloor_resp_le in H. rewrite Qfloor_Z in H.
  pose proof (roundHalfEven_floor y). lia.
Qed.

Lemma roundHalfEven_below (y : Q) (k : Z) :
  y <= inject_Z k - (3 # 4) -> (Js.roundHalfEven y <= k - 1)%Z.
Proof.
  intros H.
  assert (Hfl : (Qfloor y <= k - 1)%Z).
  { assert (Hk : (Qfloor y < k)%Z); [|lia].
    rewrite Zlt_Qlt. apply Qle_lt_trans with y; [apply Qfloor_le|lra]. }
  unfold Js.roundHalfEven.
  destruct (negb (Qle_bool (1 # 2) (y - inject_Z (Qfloor y)))) eqn:Hhalf; [exact Hfl|].
  apply negb_false_iff, Qle_bool_iff in Hhalf.
  assert (Hlt : (Qfloor y < k - 1)%Z).
  { rewrite Zlt_Qlt. unfold Zminus. rewrite inject_Z_plus, inject_Z_opp.
    change (inject_Z 1) with 1. lra. }
  destruct (Qle_bool _ _); [destruct (Z.even _)|]; lia.
Qed.

Lemma pow2_nonneg (z : Z) : (0 <= z)%Z -> 2 ^ z == inject_Z (2 ^ z).
Proof. intros H. now rewrite Zpower_Qpower. Qed.

Lemma pow2_pos (z : Z) : 0 < 2 ^ z.
Proof. apply Qpower_0_lt. reflexivity. Qed.

Lemma binade_spec (x : Q) :
  0 < x -> 2 ^ Js.binade x <= x /\ x < 2 ^ (Js.binade x + 1).
Proof.
  intros Hx. destruct x as [n d]. unfold Js.binade. cbn [Qnum Qden].
  assert (Hn : (0 < n)%Z) by (unfold Qlt in Hx; simpl in Hx; lia).
  destruct (Z.log2_spec n Hn) as [Hn1 Hn2].
  destruct (Z.log2_spec (Zpos d) (Pos2Z.is_pos d)) as [Hd1 Hd2].
  set (a := Z.log2 n) in *. set (b := Z.log2 (Zpos d)) in *.
  assert (Ha : (0 <= a)%Z) by apply Z.log2_nonneg.
  assert (Hb : (0 <= b)%Z) by apply Z.log2_nonneg.
  assert (HA : 2 ^ a == inject_Z (2 ^ a)) by now apply pow2_nonneg.
  assert (HB : 2 ^ b == inject_Z (2 ^ b)) by now apply pow2_nonneg.
  assert (Hmid : 2 ^ (a - b) == 2 ^ a / 2 ^ b).
  { apply Qpower_minus. discriminate. }
  assert (Hup : 2 ^ (a - b + 1) == 2 * (2 ^ a / 2 ^ b)).
  { rewrite Qpower_plus by discriminate. rewrite Hmid. change (2 ^ 1) with 2. ring. }
  assert (Hdown : 2 ^ (a - b - 1 + 1) == 2 ^ a / 2 ^ b).
  { replace (a - b - 1 + 1)%Z with (a - b)%Z by lia. exact Hmid. }
  assert (Hlow : 2 ^ (a - b - 1) == (2 ^ a / 2 ^ b) / 2).
  { unfold Zminus at 1. rewrite Qpower_plus by discriminate.
    fold (Zminus a b). rewrite Hmid. change (2 ^ (-1)) with (/ 2). reflexivity. }
  assert (Hxq : n # d == inject_Z n / inject_Z (Zpos d)) by apply Qmake_Qdiv.
  assert (HN1 : inject_Z (2 ^ a) <= inject_Z n) by now rewrite <- Zle_Qle.
  assert (HN2 : inject_Z n < 2 * inject_Z (2 ^ a)).
  { change 2 with (inject_Z 2). rewrite <- inject_Z_mult, <- Zlt_Qlt.
    rewrite Z.pow_succ_r in Hn2 by assumption. exact Hn2. }
  assert (HD1 : inject_Z (2 ^ b) <= inject_Z (Zpos d)) by now rewrite <- Zle_Qle.
  assert (HD2 : inject_Z (Zpos d) < 2 * inject_Z (2 ^ b)).
  { change 2 with (inject_Z 2). rewrite <- inject_Z_mult, <- Zlt_Qlt.
    rewrite Z.pow_succ_r in Hd2 by assumption. exact Hd2. }
  assert (HAp : 0 < inject_Z (2 ^ a)).
  { rewrite <- HA. apply pow2_pos. }
  assert (HBp : 0 < inject_Z (2 ^ b)).
  { rewrite <- HB. apply pow2_pos. }
  set (A := inject_Z (2 ^ a)) in *. set (B := inject_Z (2 ^ b)) in *.
  set (N := inject_Z n) in *. set (D := inject_Z (Zpos d)) in *.
  assert (HDp : 0 < D) by lra.
  assert (Hlt2 : N / D < 2 * (A / B)).
  { apply Qlt_shift_div_r; [exact HDp|].
    assert (E : 2 * (A / B) * D == (2 * A) * (D / B)) by (field; lra).
    rewrite E.
    assert (1 <= D / B) by (apply Qle_shift_div_l; lra).
    nra. }
  assert (Hgt2 : (A / B) / 2 < N / D).
  { apply Qlt_shift_div_l; [exact HDp|].
    assert (E : A / B / 2 * D == A * ((D / B) / 2)) by (field; lra).
    rewrite E.
    assert (D / B < 2) by (apply Qlt_shift_div_r; lra).
    set (r := D / B) in *. unfold Qdiv. change (/ 2) with (1 # 2).
    assert (A * (r * (1 # 2)) < A * 1) by (apply Qmult_lt_l; lra).
    lra. }
  destruct (Qle_bool (2 ^ (a - b)) (n # d)) eqn:Hle.
  - apply Qle_bool_iff in Hle. split; [exact Hle|].
    rewrite Hup, Hxq, HA, HB. exact Hlt2.
  - apply not_true_iff_false in Hle. rewrite Qle_bool_iff in Hle.
    split.
    + rewrite Hlow, Hxq, HA, HB. lra.
    + rewrite Hdown. rewrite <- Hmid. lra.
Qed.

Lemma binade_below_three (x : Q) : 0 < x -> x < 8 -> (Js.binade x <= 2)%Z.
Proof.
  intros Hpos Hlt. destruct (binade_spec x Hpos) as [Hlo _].
  destruct (Z_le_gt_dec (Js.binade x) 2) as [Hle|Hgt]; [exact Hle|exfalso].
  assert (H3 : 2 ^ 3 <= 2 ^ Js.binade x).
  { apply Qpower_le_compat_l; [lia|]. unfold Qle. simpl. lia. }
  change (2 ^ 3) with 8 in H3. lra.
Qed.

(** Rounding a number of [0, 8) to a double does not cross an integer
    that lies at least 6 * 2^-53 above it, nor one at or below it. *)
Lemma roundDouble_between (x : Q) (n : Z) :
  0 < x -> x < 8 ->
  (inject_Z n <= x -> inject_Z n <= Js.roundDouble x) /\
  (x <= inject_Z n - (6 # 9007199254740992) -> Js.roundDouble x < inject_Z n).
Proof.
  intros Hpos Hlt.
  pose proof (binade_below_three x Hpos Hlt) as He.
  assert (Hround : Js.roundDouble x
                   = inject_Z (Js.roundHalfEven (x / 2 ^ (Js.binade x - 52)))
                     * 2 ^ (Js.binade x - 52)).
  { destruct x as [[|p|p] d]; try (unfold Qlt in Hpos; simpl in Hpos; lia).
    reflexivity. }
  rewrite Hround. clear Hround.
  set (e := Js.binade x) in *. set (s := (52 - e)%Z).
  assert (Hs : (50 <= s)%Z) by (unfold s; lia).
  assert (Hq : 2 ^ (e - 52) == / inject_Z (2 ^ s)).
  { replace (e - 52)%Z with (- s)%Z by (unfold s; lia).
    rewrite Qpower_opp, pow2_nonneg by lia. reflexivity. }
  assert (HS : inject_Z (2 ^ 50) <= inject_Z (2 ^ s)).
  { rewrite <- Zle_Qle. apply Z.pow_le_mono_r; lia. }
  change (inject_Z (2 ^ 50)) with 1125899906842624 in HS.
  set (S := inject_Z (2 ^ s)) in *.
  assert (Hy : x / 2 ^ (e - 52) == x * S).
  { rewrite Hq. field. lra. }
  set (y := x / 2 ^ (e - 52)) in *.
  assert (Hqpos : 0 < 2 ^ (e - 52)) by (apply Qpower_0_lt; reflexivity).
  set (q := 2 ^ (e - 52)) in *.
  assert (HqS : q * S == 1) by (rewrite Hq; field; lra).
  split.
  - intros Hn.
    assert (Hk : (n * 2 ^ s <= Js.roundHalfEven y)%Z).
    { apply roundHalfEven_ge. rewrite inject_Z_mult, Hy. fold S.
      apply Qmult_le_compat_r; lra. }
    rewrite Zle_Qle, inject_Z_mult in Hk. fold S in Hk.
    assert (Hmul : inject_Z n * S * q <= inject_Z (Js.roundHalfEven y) * q).
    { apply Qmult_le_compat_r; lra. }
    assert (E : inject_Z n * S * q == inject_Z n).
    { rewrite <- Qmult_assoc, (Qmult_comm S q), HqS. ring. }
    rewrite E in Hmul. exact Hmul.
  - intros Hn.
    assert (Hk : (Js.roundHalfEven y <= n * 2 ^ s - 1)%Z).
    { apply roundHalfEven_below. rewrite inject_Z_mult, Hy. fold S.
      assert (Hx : x * S <= (inject_Z n - (6 # 9007199254740992)) * S).
      { apply Qmult_le_compat_r; lra. }
      assert (Hgap : (3 # 4) <= (6 # 9007199254740992) * S).
      { assert (Hg : (6 # 9007199254740992) * 1125899906842624
                     <= (6 # 9007199254740992) * S).
        { apply Qmult_le_l; [reflexivity|exact HS]. }
        assert (Hc : (6 # 9007199254740992) * 1125899906842624 == 3 # 4) by reflexivity.
        rewrite Hc in Hg. exact Hg. }
      set (g := (6 # 9007199254740992) * S) in *.
      assert (Ex : (inject_Z n - (6 # 9007199254740992)) * S == inject_Z n * S - g)
        by (unfold g; ring).
      rewrite Ex in Hx. lra. }
    rewrite Zle_Qle in Hk. unfold Zminus in Hk.
    rewrite inject_Z_plus, inject_Z_mult, inject_Z_opp in Hk.
    fold S in Hk. change (inject_Z 1) with 1 in Hk.
    assert (Hmul : inject_Z (Js.roundHalfEven y) * q <= (inject_Z n * S + - (1)) * q).
    { apply Qmult_le_compat_r; lra. }
    assert (E : (inject_Z n * S + - (1)) * q == inject_Z n - q).
    { assert (E1 : inject_Z n * S * q == inject_Z n).
      { rewrite <- Qmult_assoc, (Qmult_comm S q), HqS. ring. }
      rewrite Qmult_plus_distr_l, E1. ring. }
    rewrite E in Hmul. lra.
Qed.

(** The double product [r * 6] is on the same side of an integer as the
    exact product, when the exact product is not within 6 * 2^-53 below it. *)
Lemma mul_six_between (r : Q) (n : Z) :
  0 <= r -> r * 6 < 8 ->
  (inject_Z n <= r * 6 -> inject_Z n <= Js.mul r 6) /\
  (r * 6 <= inject_Z n - (6 # 9007199254740992) -> Js.mul r 6 < inject_Z n).
Proof.
  intros Hlo Hhi. unfold Js.mul.
  destruct (Qlt_le_dec 0 r) as [Hpos|Hzero].
  - apply roundDouble_between; lra.
  - assert (Hnum : Qnum (r * 6) = 0%Z).
    { destruct r as [m d]. unfold Qle in Hlo, Hzero. simpl in *.
      assert (m = 0%Z) by lia. subst m. reflexivity. }
    assert (Hr : r * 6 == 0) by lra.
    unfold Js.roundDouble. rewrite Hnum. rewrite Hr. split; [tauto|].
    intros H. apply Qlt_le_trans with (6 # 9007199254740992); [reflexivity|lra].
Qed.

(** The product [r * 6] of a value below 1 stays below 6, as a double. *)
Lemma mul_six_range (r : Q) :
  0 <= r -> r <= 1 - (1 # 9007199254740992) ->
  0 <= Js.mul r 6 /\ Js.mul r 6 < 6.
Proof.
  intros Hlo Hhi.
  assert (H8 : r * 6 < 8) by lra.
  destruct (mul_six_between r 0 Hlo H8) as [Hge _].
  destruct (mul_six_between r 6 Hlo H8) as [_ Hlt].
  change (inject_Z 0) with 0 in Hge. change (inject_Z 6) with 6 in Hlt.
  split; [apply Hge; lra|apply Hlt].
  assert (E : 6 - (6 # 9007199254740992) == (1 - (1 # 9007199254740992)) * 6)
    by reflexivity.
  rewrite E. lra.
Qed.

(** ** The move generator *)

Section ShuffleFacts.

Variable rnd : nat -> Q.
Hypothesis rnd_range : inUnitRange rnd.
Hypothesis rnd_moves : neverStalls rnd.

Lemma pickFace_in_range (k : nat) : exists f, pickFace (rnd k) = Some f.
Proof.
  destruct (rnd_range k) as [Hlo Hhi]. unfold pickFace.
  change (inject_Z (Z.of_nat (length faces))) with 6.
  destruct (mul_six_range (rnd k) Hlo Hhi) as [H0' H6'].
  assert (H0 : (0 <= Qfloor (Js.mul (rnd k) 6))%Z).
  { rewrite <- (Qfloor_Z 0). apply Qfloor_resp_le. exact H0'. }
  assert (H6 : (Qfloor (Js.mul (rnd k) 6) < 6)%Z).
  { rewrite Zlt_Qlt. apply Qle_lt_trans with (Js.mul (rnd k) 6); [apply Qfloor_le|].
    exact H6'. }
  destruct (Z.ltb_spec (Qfloor (Js.mul (rnd k) 6)) 0) as [Hneg|_]; [lia|].
  apply lookup_lt_is_Some. change (length faces) with 6%nat. lia.
Qed.

(** The [do ... while] loop stops at the first draw that differs from
    [lastFace], at most [d] draws ahead. *)
Lemma drawFace_stops (d k : nat) (lastFace : option Face) :
  pickFace (rnd (k + d)) <> lastFace ->
  exists fuel f k',
    Some f <> lastFace /\
    forall fuel', (fuel <= fuel')%nat ->
      drawFace rnd fuel' k lastFace = Done (f, k').
Proof.
  revert k. induction d as [|d IH]; intros k Hdiff.
  - rewrite Nat.add_0_r in Hdiff.
    destruct (pickFace_in_range k) as [f Hf]. rewrite Hf in Hdiff.
    exists 1%nat, f, (S k). split; [exact Hdiff|].
    intros [|fuel'] Hfuel; [lia|]. simpl. rewrite Hf.
    now destruct (decide (Some f = lastFace)).
  - destruct (pickFace_in_range k) as [f Hf].
    destruct (decide (Some f = lastFace)) as [Hsame|Hother].
    + destruct (IH (S k)) as (fuel & g & k' & Hg & Hrun).
      { now rewrite Nat.add_succ_comm. }
      exists (S fuel), g, k'. split; [exact Hg|].
      intros [|fuel'] Hfuel; [lia|]. simpl. rewrite Hf.
      destruct (decide (Some f = lastFace)); [|contradiction].
      apply Hrun. lia.
    + exists 1%nat, f, (S k). split; [exact Hother|].
      intros [|fuel'] Hfuel; [lia|]. simpl. rewrite Hf.
      now destruct (decide (Some f = lastFace)).
Qed.

Lemma drawFace_total (k : nat) (lastFace : option Face) :
  exists fuel f k',
    Some f <> lastFace /\
    forall fuel', (fuel <= fuel')%nat ->
      drawFace rnd fuel' k lastFace = Done (f, k').
Proof.
  destruct lastFace as [f0|].
  - destruct (rnd_moves k f0) as (j & Hj & Hdiff).
    apply (drawFace_stops (j - k) k).
    now replace (k + (j - k))%nat with j by lia.
  - apply (drawFace_stops 0 k). rewrite Nat.add_0_r.
    destruct (pickFace_in_range k) as [f ->]. discriminate.
Qed.

(** The generation loop ends, and what it returns. *)
Lemma generateMoves_total (n k : nat) (lastFace : option Face) :
  exists fuel moves k',
    (forall fuel', (fuel <= fuel')%nat ->
       generateMoves rnd fuel' n k lastFace = Done (moves, k')) /\
    length moves = n /\
    noImmediateRepeat moves /\
    (forall m, moves !! 0%nat = Some m -> Some (face m) <> lastFace).
Proof.
  revert k lastFace. induction n as [|n IH]; intros k lastFace.
  - exists 0%nat, [], k. split; [reflexivity|]. split; [reflexivity|].
    split; [intros i m1 m2 H; discriminate H|intros m H; discriminate H].
  - destruct (drawFace_total k lastFace) as (fuel1 & f & k1 & Hf & Hdraw).
    destruct (IH (S k1) (Some f)) as (fuel2 & moves & k2 & Hgen & Hlen & Hrep & Hhead).
    exists (Nat.max fuel1 fuel2),
      ({| face := f; clockwise := pickDirection (rnd k1) |} :: moves), k2.
    split; [|split; [|split]].
    + intros fuel' Hfuel. simpl.
      rewrite Hdraw by lia. now rewrite Hgen by lia.
    + simpl. now rewrite Hlen.
    + intros [|i] m1 m2 H1 H2; simpl in H1, H2.
      * injection H1 as <-. simpl. intros Heq.
        apply (Hhead m2 H2). now rewrite Heq.
      * now apply (Hrep i).
    + intros m Hm. simpl in Hm. injection Hm as <-. exact Hf.
Qed.

End ShuffleFacts.

(** A draw is rejected exactly when it picks [lastFace]. *)
Lemma drawFace_step (rnd : nat -> Q) (fuel k : nat) (lastFace : option Face) (f : Face) :
  pickFace (rnd k) = Some f ->
  drawFace rnd (S fuel) k lastFace =
  if decide (Some f = lastFace) then drawFace rnd fuel (S k) lastFace
  else Done (f, S k).
Proof. intros Hf. simpl. now rewrite Hf. Qed.

Lemma drawFace_done (rnd : nat -> Q) (fuel k : nat) (lastFace : option Face)
    (f : Face) (k1 : nat) :
  drawFace rnd fuel k lastFace = Done (f, k1) ->
  (k < k1)%nat /\
  pickFace (rnd (k1 - 1)%nat) = Some f /\
  Some f <> lastFace /\
  (forall j, (k <= j < k1 - 1)%nat -> pickFace (rnd j) = lastFace) /\
  (forall fuel', (fuel <= fuel')%nat -> drawFace rnd fuel' k lastFace = Done (f, k1)).
Proof.
  revert k. induction fuel as [|fuel IH]; intros k Hrun; [discriminate Hrun|].
  simpl in Hrun. destruct (pickFace (rnd k)) as [g|] eqn:Hg; [|discriminate Hrun].
  destruct (decide (Some g = lastFace)) as [Hsame|Hother].
  - destruct (IH (S k) Hrun) as (Hlt & Hpick & Hdiff & Hrej & Hmono).
    split; [lia|]. split; [exact Hpick|]. split; [exact Hdiff|]. split.
    + intros j Hj. destruct (decide (j = k)) as [->|Hne]; [congruence|].
      apply Hrej. lia.
    + intros [|fuel'] Hfuel; [lia|]. simpl. rewrite Hg.
      destruct (decide (Some g = lastFace)); [|contradiction].
      apply Hmono. lia.
  - injection Hrun as <- <-. simpl. rewrite Nat.sub_0_r.
    split; [lia|]. split; [exact Hg|]. split; [exact Hother|]. split.
    + intros j Hj. lia.
    + intros [|fuel'] Hfuel; [lia|]. simpl. rewrite Hg.
      now destruct (decide (Some g = lastFace)).
Qed.

Lemma pickDirection_above_half (r : Q) :
  pickDirection r = true <-> 1 # 2 < r.
Proof.
  unfold pickDirection. rewrite negb_true_iff, <- not_true_iff_false, Qle_bool_iff.
  split; [apply Qnot_le_lt|apply Qlt_not_le].
Qed.

(** The moves the generation loop returns are the ones read off the
    random values. *)
Lemma generateMoves_drawn (rnd : nat -> Q) (fuel n k : nat) (lastFace : option Face)
    (moves : list ShuffleMove) (k' : nat) :
  generateMoves rnd fuel n k lastFace = Done (moves, k') ->
  drawnFrom rnd k lastFace moves k'.
Proof.
  revert k lastFace moves k'. induction n as [|n IH]; intros k lastFace moves k' Hrun.
  - simpl in Hrun. injection Hrun as <- <-. reflexivity.
  - simpl in Hrun.
    destruct (drawFace rnd fuel k lastFace) as [[f k1]| |] eqn:Hdraw;
      try discriminate Hrun.
    destruct (generateMoves rnd fuel n (S k1) (Some f)) as [[rest k2]| |] eqn:Hrest;
      try discriminate Hrun.
    injection Hrun as <- <-.
    destruct (drawFace_done rnd fuel k lastFace f k1 Hdraw)
      as (Hlt & Hpick & Hdiff & Hrej & _).
    exists (k1 - 1)%nat. simpl.
    replace (S (k1 - 1)) with k1 by lia.
    split; [lia|]. split; [exact Hrej|]. split; [exact Hpick|].
    split; [exact Hdiff|]. split; [apply pickDirection_above_half|].
    now apply IH.
Qed.

(** C9: with a random source that honours the contract of [Math.random]
    and does not draw one face forever, the generation loop of a shuffle
    of [n] moves ends, with exactly [n] moves, no two consecutive ones on
    the same face.  Each move is drawn from the random values: its face is
    picked by the first value drawn for it that does not pick the face of
    the move before, so a value is redrawn when, and only when, it picks
    that face; its direction is given by the value drawn next, clockwise
    exactly when that value is above 1/2. *)
Theorem shuffle_generates_moves (rnd : nat -> Q) (n k : nat)
    (Hrange : inUnitRange rnd) (Hmoves : neverStalls rnd) :
  exists fuel moves k',
    (forall fuel', (fuel <= fuel')%nat ->
       generateMoves rnd fuel' n k None = Done (moves, k')) /\
    length moves = n /\
    noImmediateRepeat moves /\
    drawnFrom rnd k None moves k'.
Proof.
  destruct (generateMoves_total rnd Hrange Hmoves n k None)
    as (fuel & moves & k' & Hgen & Hlen & Hrep & _).
  exists fuel, moves, k'. split; [exact Hgen|]. split; [exact Hlen|].
  split; [exact Hrep|].
  apply (generateMoves_drawn rnd fuel n). now apply Hgen.
Qed.

(** Four random values that make front and top, both clockwise, the
    first two moves. *)
Example generateMoves_front_then_top :
  generateMoves (fun k => nth k [0; 3 # 4; 2 # 5; 3 # 4] 0) 1 2 0 None
  = Done ([ {| face := front; clockwise := true |};
            {| face := top; clockwise := true |} ], 4%nat).
Proof. reflexivity. Qed.

Example generateMoves_alternating :
  generateMoves alternatingSource 2 3 0 None
  = Done ([ {| face := front; clockwise := false |};
            {| face := bottom; clockwise := false |};
            {| face := front; clockwise := false |} ], 8%nat).
Proof. reflexivity. Qed.

(** A source that draws one face forever keeps the second move's
    [do ... while] redrawing. *)
Lemma drawFace_constant_source (fuel k : nat) :
  drawFace (fun _ => 0) fuel k (Some front) = Spinning.
Proof.
  revert k. induction fuel as [|fuel IH]; intros k; [reflexivity|].
  rewrite (drawFace_step _ fuel k (Some front) front) by reflexivity.
  destruct (decide (Some front = Some front)); [apply IH|congruence].
Qed.

Example generateMoves_constant_source (fuel : nat) :
  generateMoves (fun _ => 0) fuel 2 0 None = Spinning.
Proof.
  destruct fuel as [|fuel]; [reflexivity|]. cbn [generateMoves].
  rewrite (drawFace_step _ fuel 0 None front) by reflexivity.
  destruct (decide (Some front = None)); [discriminate|].
  now rewrite drawFace_constant_source.
Qed.

Lemma alternatingSource_range : inUnitRange alternatingSource.
Proof.
  intros k. unfold alternatingSource, Qle, Qlt.
  destruct (Nat.even k); simpl; lia.
Qed.

Lemma alternatingSource_moves : neverStalls alternatingSource.
Proof.
  intros k f.
  exists (if decide (pickFace (alternatingSource k) = Some f) then S k else k).
  case_decide as Hk; [|auto]. split; [lia|].
  unfold alternatingSource in *. rewrite Nat.even_succ, <- Nat.negb_even.
  destruct (Nat.even k); vm_compute in Hk |- *; congruence.
Qed.

Lemma shuffle_generates_moves_witness :
  exists fuel moves k',
    (forall fuel', (fuel <= fuel')%nat ->
       generateMoves alternatingSource fuel' shuffleMoves 0 None = Done (moves, k')) /\
    length moves = shuffleMoves /\
    noImmediateRepeat moves /\
    drawnFrom alternatingSource 0 None moves k'.
Proof.
  apply (shuffle_generates_moves alternatingSource shuffleMoves 0).
  - exact alternatingSource_range.
  - exact alternatingSource_moves.
Defined.

(** [shuffleCube] on an idle engine: the twenty moves of the implementation. *)
Lemma shuffleCube_twenty_moves (rnd : nat -> Q) (k : nat) (e : Engine) :
  inUnitRange rnd -> neverStalls rnd ->
  isShuffling e = false -> isAnimating e = false ->
  exists fuel moves k',
    (forall fuel', (fuel <= fuel')%nat ->
       (shuffleCube rnd fuel' k e).2 = Done (moves, k')) /\
    length moves = 20%nat /\
    noImmediateRepeat moves.
Proof.
  intros Hrange Hmoves Hsh Han.
  destruct (generateMoves_total rnd Hrange Hmoves shuffleMoves k None)
    as (fuel & moves & k' & Hgen & Hlen & Hrep & _).
  exists fuel, moves, k'. split; [|auto].
  intros fuel' Hfuel. unfold shuffleCube. rewrite Hsh, Han. simpl.
  now apply Hgen.
Qed.

(** ** Invariants of the cube state *)

Lemma shouldRotate_inLayer (f : Face) (p : CubePieceState) :
  shouldRotate f p = inLayer f (position p).
Proof.
  unfold shouldRotate, inLayer. destruct (position p) as [[x y] z].
  now destruct f.
Qed.

Lemma position_committedPiece (f : Face) (cw : bool) (p : CubePieceState) :
  position (committedPiece f cw p) = turnPosition f cw (position p).
Proof.
  unfold committedPiece, turnPosition. rewrite shouldRotate_inLayer.
  now destruct (inLayer f (position p)).
Qed.

Lemma turnPosition_grid (f : Face) (cw : bool) :
  turnPosition f cw <$> grid ≡ₚ grid.
Proof.
  destruct f, cw; apply (bool_decide_unpack _); vm_compute; exact I.
Qed.

Lemma committedTurn_onePiecePerCell (f : Face) (cw : bool) (st : list CubePieceState) :
  onePiecePerCell st -> onePiecePerCell (committedTurn f cw st).
Proof.
  unfold onePiecePerCell, committedTurn. intros Hst.
  rewrite <- list_fmap_compose.
  assert (Hmap : position ∘ committedPiece f cw <$> st
                 = turnPosition f cw <$> (position <$> st)).
  { rewrite <- list_fmap_compose. apply list_fmap_ext.
    intros i p _. apply position_committedPiece. }
  rewrite Hmap, Hst. apply turnPosition_grid.
Qed.

(** After an awaited turn every cell of the puzzle still holds exactly
    one piece. *)
Theorem turn_keeps_one_piece_per_cell (Math_cos Math_sin : Q -> Q) (Math_PI : Q)
    (f : Face) (cw : bool) (s : Schedule) (e : Engine)
    (Hidle : isAnimating e = false) (Hs : completes s)
    (Hcells : onePiecePerCell (cubeState e)) :
  onePiecePerCell (cubeState (awaitedTurn Math_cos Math_sin Math_PI f cw s e)).
Proof.
  rewrite awaitedTurn_result by assumption. simpl.
  now apply committedTurn_onePiecePerCell.
Qed.

Lemma turn_keeps_one_piece_per_cell_witness :
  onePiecePerCell
    (cubeState (awaitedTurn (fun a => 1 - a * a / 2) (fun a => a) (355 # 113)
                  right false {| begins := 0; frameTimes := [40]; ends := 520 |}
                  initialEngine)).
Proof.
  apply (turn_keeps_one_piece_per_cell (fun a => 1 - a * a / 2) (fun a => a) (355 # 113)
           right false {| begins := 0; frameTimes := [40]; ends := 520 |} initialEngine).
  - reflexivity.
  - unfold completes, Qle. simpl. lia.
  - apply (bool_decide_unpack _). vm_compute. exact I.
Defined.

Lemma Qeq_bool_opp_one (a : Q) :
  Qeq_bool (- a) 1 = Qeq_bool a (- (1)) /\ Qeq_bool (- a) (- (1)) = Qeq_bool a 1.
Proof.
  split; apply eq_iff_eq_true; rewrite !Qeq_bool_iff; split; intros H; lra.
Qed.

Lemma stickersOutward_six (p : CubePieceState) :
  stickersOutward p -> length (colors p) = 6%nat.
Proof.
  unfold stickersOutward. intros H. apply (f_equal length) in H.
  rewrite length_fmap in H. rewrite H.
  now destruct (position p) as [[x y] z].
Qed.

(** The colour transform agrees with the position transform, the
    inverted direction of the top and bottom faces included: a piece whose
    coloured facelets face outward keeps them facing outward. *)
Lemma commitPiece_stickersOutward (f : Face) (cw : bool) (p : CubePieceState) :
  stickersOutward p -> stickersOutward (commitPiece f cw (position p) p).
Proof.
  intros H. pose proof (stickersOutward_six p H) as Hsix.
  destruct p as [i [[x y] z] cols rot ani]. simpl in Hsix.
  destruct (length_six _ Hsix) as (c0 & c1 & c2 & c3 & c4 & c5 & ->).
  unfold stickersOutward in *. simpl in H.
  injection H as H0 H1 H2 H3 H4 H5.
  destruct (Qeq_bool_opp_one x) as [Hx1 Hx2].
  destruct (Qeq_bool_opp_one y) as [Hy1 Hy2].
  destruct (Qeq_bool_opp_one z) as [Hz1 Hz2].
  destruct f, cw; cbv -[isSticker Qeq_bool Qopp]; congruence.
Qed.

Lemma committedPiece_stickersOutward (f : Face) (cw : bool) (p : CubePieceState) :
  stickersOutward p -> stickersOutward (committedPiece f cw p).
Proof.
  intros H. unfold committedPiece. destruct (shouldRotate f p); [|exact H].
  now apply commitPiece_stickersOutward.
Qed.

(** After an awaited turn of any face in any direction, the coloured
    facelets of every piece are the ones on the surface of the cube. *)
Theorem turn_keeps_stickers_outward (Math_cos Math_sin : Q -> Q) (Math_PI : Q)
    (f : Face) (cw : bool) (s : Schedule) (e : Engine)
    (Hidle : isAnimating e = false) (Hs : completes s)
    (Hout : Forall stickersOutward (cubeState e)) :
  Forall stickersOutward
    (cubeState (awaitedTurn Math_cos Math_sin Math_PI f cw s e)).
Proof.
  rewrite awaitedTurn_result by assumption. simpl. unfold committedTurn.
  apply Forall_fmap. eapply Forall_impl; [exact Hout|].
  intros p Hp. now apply committedPiece_stickersOutward.
Qed.

Lemma initializeCube_stickersOutward : Forall stickersOutward initializeCube.
Proof. repeat constructor. Qed.

Lemma turn_keeps_stickers_outward_witness :
  Forall stickersOutward
    (cubeState (awaitedTurn (fun a => 1 - a * a / 2) (fun a => a) (355 # 113)
                  top true {| begins := 0; frameTimes := []; ends := 500 |}
                  initialEngine)).
Proof.
  apply (turn_keeps_stickers_outward (fun a => 1 - a * a / 2) (fun a => a) (355 # 113)
           top true {| begins := 0; frameTimes := []; ends := 500 |} initialEngine).
  - reflexivity.
  - unfold completes, Qle. simpl. lia.
  - repeat constructor.
Defined.

(** ** How turns compose *)

Lemma commitPiece_inverse (f : Face) (cw : bool) (p : CubePieceState) :
  restingPiece p ->
  let q := commitPiece f cw (position p) p in
  commitPiece f (negb cw) (position q) q = p.
Proof.
  destruct p as [i [[x y] z] cols rot ani]. intros [Hrot Hsix]. simpl in Hrot, Hsix.
  destruct (length_six _ Hsix) as (c0 & c1 & c2 & c3 & c4 & c5 & ->). subst rot.
  destruct f, cw; cbv [commitPiece set_position set_colors set_rotation
                       position colors rotation id animationRotation
                       getAxisForFace colorClockwise negb];
    simpl; now rewrite ?Qopp_opp_eq.
Qed.

Lemma committedPiece_inverse (f : Face) (cw : bool) (p : CubePieceState) :
  restingPiece p ->
  committedPiece f (negb cw) (committedPiece f cw p) = p.
Proof.
  intros Hrest. unfold committedPiece at 2.
  destruct (shouldRotate f p) eqn:Hsel.
  - unfold committedPiece. rewrite shouldRotate_commitPiece, Hsel.
    exact (commitPiece_inverse f cw p Hrest).
  - unfold committedPiece. now rewrite Hsel.
Qed.

(** A turn followed by the turn of the same face in the other direction
    brings the engine back to the state before the first one. *)
Theorem turn_then_inverse_restores (Math_cos Math_sin : Q -> Q) (Math_PI : Q)
    (f : Face) (cw : bool) (s1 s2 : Schedule) (e : Engine)
    (Hidle : isAnimating e = false) (Hnone : inFlight e = None)
    (Hrest : Forall restingPiece (cubeState e))
    (H1 : completes s1) (H2 : completes s2) :
  awaitedTurn Math_cos Math_sin Math_PI f (negb cw) s2
    (awaitedTurn Math_cos Math_sin Math_PI f cw s1 e) = e.
Proof.
  rewrite (awaitedTurn_result _ _ _ f cw s1 e) by assumption.
  rewrite awaitedTurn_result by (assumption || reflexivity).
  unfold turnDone. simpl.
  assert (Hback : committedTurn f (negb cw) (committedTurn f cw (cubeState e))
                  = cubeState e).
  { unfold committedTurn. rewrite <- list_fmap_compose.
    induction Hrest as [|p st Hp _ IH]; [reflexivity|].
    rewrite fmap_cons, IH. f_equal. now apply committedPiece_inverse. }
  rewrite Hback. destruct e as [st an sh fl]. simpl in *. now subst.
Qed.

Lemma turn_then_inverse_restores_witness :
  let s := {| begins := 0; frameTimes := [100; 250]; ends := 500 |} in
  awaitedTurn (fun a => 1 - a * a / 2) (fun a => a) (355 # 113) bottom (negb true) s
    (awaitedTurn (fun a => 1 - a * a / 2) (fun a => a) (355 # 113) bottom true s
       initialEngine)
  = initialEngine.
Proof.
  apply (turn_then_inverse_restores (fun a => 1 - a * a / 2) (fun a => a) (355 # 113)
           bottom true
           {| begins := 0; frameTimes := [100; 250]; ends := 500 |}
           {| begins := 0; frameTimes := [100; 250]; ends := 500 |}
           initialEngine).
  - reflexivity.
  - reflexivity.
  - repeat constructor.
  - unfold completes, Qle. simpl. lia.
  - unfold completes, Qle. simpl. lia.
Defined.

Lemma shouldRotate_opposite_commitPiece (f : Face) (cw : bool) (p : CubePieceState) :
  shouldRotate (oppositeFace f) (commitPiece f cw (position p) p)
  = shouldRotate (oppositeFace f) p.
Proof.
  destruct p as [i [[x y] z] cols rot ani]. destruct f, cw; reflexivity.
Qed.

Lemma shouldRotate_opposite_exclusive (f : Face) (p : CubePieceState) :
  shouldRotate f p = true -> shouldRotate (oppositeFace f) p = false.
Proof.
  unfold shouldRotate. destruct (position p) as [[x y] z].
  destruct f; simpl; intros H; apply Z.eqb_eq in H; rewrite H; reflexivity.
Qed.

Lemma oppositeFace_involutive (f : Face) : oppositeFace (oppositeFace f) = f.
Proof. now destruct f. Qed.

Lemma committedPiece_selected (f : Face) (cw : bool) (p : CubePieceState) :
  shouldRotate f p = true ->
  committedPiece f cw p = commitPiece f cw (position p) p.
Proof. intros H. unfold committedPiece. now rewrite H. Qed.

Lemma committedPiece_unselected (f : Face) (cw : bool) (p : CubePieceState) :
  shouldRotate f p = false -> committedPiece f cw p = p.
Proof. intros H. unfold committedPiece. now rewrite H. Qed.

Lemma committedPiece_opposite_commute (f : Face) (a b : bool) (p : CubePieceState) :
  committedPiece f a (committedPiece (oppositeFace f) b p)
  = committedPiece (oppositeFace f) b (committedPiece f a p).
Proof.
  destruct (shouldRotate f p) eqn:Hf.
  - pose proof (shouldRotate_opposite_exclusive f p Hf) as Hg.
    rewrite (committedPiece_unselected (oppositeFace f) b p Hg).
    rewrite (committedPiece_selected f a p Hf).
    rewrite committedPiece_unselected; [reflexivity|].
    now rewrite shouldRotate_opposite_commitPiece.
  - rewrite (committedPiece_unselected f a p Hf).
    destruct (shouldRotate (oppositeFace f) p) eqn:Hg.
    + rewrite (committedPiece_selected (oppositeFace f) b p Hg).
      apply committedPiece_unselected.
      pose proof (shouldRotate_opposite_commitPiece (oppositeFace f) b p) as Hkeep.
      rewrite oppositeFace_involutive in Hkeep. now rewrite Hkeep.
    + rewrite (committedPiece_unselected (oppositeFace f) b p Hg).
      now apply committedPiece_unselected.
Qed.

(** Turns of two opposite faces commute: awaited in either order, from
    any idle engine, they leave the same engine state. *)
Theorem opposite_turns_commute (Math_cos Math_sin : Q -> Q) (Math_PI : Q)
    (f : Face) (a b : bool) (s1 s2 s3 s4 : Schedule) (e : Engine)
    (Hidle : isAnimating e = false)
    (H1 : completes s1) (H2 : completes s2) (H3 : completes s3) (H4 : completes s4) :
  awaitedTurn Math_cos Math_sin Math_PI f a s2
    (awaitedTurn Math_cos Math_sin Math_PI (oppositeFace f) b s1 e)
  = awaitedTurn Math_cos Math_sin Math_PI (oppositeFace f) b s4
      (awaitedTurn Math_cos Math_sin Math_PI f a s3 e).
Proof.
  rewrite (awaitedTurn_result _ _ _ (oppositeFace f) b s1 e) by assumption.
  rewrite (awaitedTurn_result _ _ _ f a s3 e) by assumption.
  rewrite !awaitedTurn_result by (assumption || reflexivity).
  unfold turnDone. simpl. f_equal.
  unfold committedTurn. rewrite <- !list_fmap_compose.
  apply list_fmap_ext. intros i p _. apply committedPiece_opposite_commute.
Qed.

Lemma opposite_turns_commute_witness :
  let s := {| begins := 0; frameTimes := [250]; ends := 600 |} in
  let turn := awaitedTurn (fun a => 1 - a * a / 2) (fun a => a) (355 # 113) in
  turn left true s (turn (oppositeFace left) false s initialEngine)
  = turn (oppositeFace left) false s (turn left true s initialEngine).
Proof.
  apply (opposite_turns_commute (fun a => 1 - a * a / 2) (fun a => a) (355 # 113)
           left true false
           {| begins := 0; frameTimes := [250]; ends := 600 |}
           {| begins := 0; frameTimes := [250]; ends := 600 |}
           {| begins := 0; frameTimes := [250]; ends := 600 |}
           {| begins := 0; frameTimes := [250]; ends := 600 |}
           initialEngine).
  - reflexivity.
  - unfold completes, Qle. simpl. lia.
  - unfold completes, Qle. simpl. lia.
  - unfold completes, Qle. simpl. lia.
  - unfold completes, Qle. simpl. lia.
Defined.

(** ** What a turn leaves alone *)

Lemma committedPiece_keeps (f : Face) (cw : bool) (p : CubePieceState) :
  id (committedPiece f cw p) = id p /\
  animationRotation (committedPiece f cw p) = animationRotation p.
Proof. unfold committedPiece. now destruct (shouldRotate f p). Qed.

(** From the request to the commit, whatever frames have run so far: no
    piece changes its id, the pieces outside the layer are not touched at
    all, and no colour changes before the turn is committed. *)
Theorem turn_touches_only_its_layer (Math_cos Math_sin : Q -> Q) (Math_PI : Q)
    (f : Face) (cw : bool) (start : Q) (frames : list Q) (e : Engine)
    (Hidle : isAnimating e = false) :
  let e' := runTurn Math_cos Math_sin Math_PI f cw start frames e in
  Forall2 (fun p p' =>
             id p' = id p /\
             (shouldRotate f p = false -> p' = p) /\
             (isAnimating e' = true -> colors p' = colors p))
          (cubeState e) (cubeState e').
Proof.
  simpl. unfold runTurn.
  destruct (frames_turning Math_cos Math_sin Math_PI f cw start frames (cubeState e)
              (isShuffling e) (rotateFace f cw start e)) as [(st & Hrel & ->)| ->].
  - left. now apply rotateFace_turning.
  - simpl. eapply Forall2_impl; [exact Hrel|]. simpl. tauto.
  - simpl. unfold committedTurn. apply Forall2_fmap_r, Forall_Forall2_diag, Forall_forall.
    intros p _. split; [apply committedPiece_keeps|].
    split; [apply committedPiece_unselected|discriminate].
Qed.

Lemma turn_touches_only_its_layer_witness :
  let e' := runTurn (fun a => 1 - a * a / 2) (fun a => a) (355 # 113)
              front true 0 [100; 200] initialEngine in
  Forall2 (fun p p' =>
             id p' = id p /\
             (shouldRotate front p = false -> p' = p) /\
             (isAnimating e' = true -> colors p' = colors p))
          (cubeState initialEngine) (cubeState e').
Proof.
  apply (turn_touches_only_its_layer (fun a => 1 - a * a / 2) (fun a => a) (355 # 113)
           front true 0 [100; 200] initialEngine).
  reflexivity.
Defined.

Lemma rotateColors_rearranges (colors : list Js.value) (axis : string) (cw : bool) :
  length colors = 6%nat -> rotateColors colors axis cw ≡ₚ colors.
Proof.
  intros Hsix. destruct (length_six _ Hsix) as (a & b & c & d & e & f & ->).
  unfold rotateColors.
  switch_axis axis; [destruct cw| destruct cw| destruct cw| reflexivity];
    cbn; solve_Permutation.
Qed.

Lemma committedPiece_colors (f : Face) (cw : bool) (p : CubePieceState) :
  length (colors p) = 6%nat -> colors (committedPiece f cw p) ≡ₚ colors p.
Proof.
  intros Hsix. unfold committedPiece. destruct (shouldRotate f p); [|reflexivity].
  simpl. now apply rotateColors_rearranges.
Qed.

Lemma committedTurn_allColors (f : Face) (cw : bool) (st : list CubePieceState) :
  Forall (fun p => length (colors p) = 6%nat) st ->
  allColors (committedTurn f cw st) ≡ₚ allColors st.
Proof.
  unfold allColors, committedTurn. induction 1 as [|p st Hp _ IH]; [reflexivity|].
  rewrite fmap_cons, !bind_cons, IH. now rewrite committedPiece_colors.
Qed.

(** A committed turn neither creates nor loses a facelet colour: over the
    whole cube, every colour occurs as often after the turn as before. *)
Theorem turn_keeps_all_colors (Math_cos Math_sin : Q -> Q) (Math_PI : Q)
    (f : Face) (cw : bool) (s : Schedule) (e : Engine)
    (Hidle : isAnimating e = false) (Hs : completes s)
    (Hsix : Forall (fun p => length (colors p) = 6%nat) (cubeState e)) :
  allColors (cubeState (awaitedTurn Math_cos Math_sin Math_PI f cw s e))
  ≡ₚ allColors (cubeState e).
Proof.
  rewrite awaitedTurn_result by assumption. simpl.
  now apply committedTurn_allColors.
Qed.

Lemma turn_keeps_all_colors_witness :
  allColors (cubeState (awaitedTurn (fun a => 1 - a * a / 2) (fun a => a) (355 # 113)
                          back true {| begins := 5; frameTimes := [90]; ends := 505 |}
                          initialEngine))
  ≡ₚ allColors (cubeState initialEngine).
Proof.
  apply (turn_keeps_all_colors (fun a => 1 - a * a / 2) (fun a => a) (355 # 113)
           back true {| begins := 5; frameTimes := [90]; ends := 505 |} initialEngine).
  - reflexivity.
  - unfold completes, Qle. simpl. lia.
  - repeat constructor.
Defined.

(** ** Every state reached from the solved cube *)

Lemma committedTurn_invariant (f : Face) (cw : bool) (st : list CubePieceState) :
  cubeInvariant st -> cubeInvariant (committedTurn f cw st).
Proof.
  intros (Hrest & Hcells & Hout & Hids & Hcols). repeat split.
  - unfold committedTurn. apply Forall_fmap. eapply Forall_impl; [exact Hrest|].
    intros p Hp. simpl. unfold committedPiece.
    destruct (shouldRotate f p); [now apply restingPiece_commitPiece|exact Hp].
  - now apply committedTurn_onePiecePerCell.
  - unfold committedTurn. apply Forall_fmap. eapply Forall_impl; [exact Hout|].
    intros p Hp. now apply committedPiece_stickersOutward.
  - rewrite <- Hids. unfold committedTurn. rewrite <- list_fmap_compose.
    apply list_fmap_ext. intros i p _. apply committedPiece_keeps.
  - rewrite <- Hcols. apply committedTurn_allColors.
    eapply Forall_impl; [exact Hrest|]. now intros p [_ Hsix].
Qed.

Lemma initializeCube_invariant : cubeInvariant initializeCube.
Proof.
  repeat split.
  - repeat constructor.
  - apply (bool_decide_unpack _). vm_compute. exact I.
  - apply initializeCube_stickersOutward.
  - reflexivity.
Qed.

(** Whatever turns are requested and awaited, starting from the solved
    cube: the engine ends idle, no piece carries a transient rotation,
    every piece has its six facelets, every cell holds one piece, the
    coloured facelets are the ones on the surface, the pieces keep their
    ids and order, the ids are pairwise distinct, and the colours of the
    whole cube are those of the solved cube. *)
Theorem reachable_states_invariant (Math_cos Math_sin : Q -> Q) (Math_PI : Q)
    (requests : list TurnRequest)
    (Hcomplete : Forall (fun r => completes (reqSchedule r)) requests) :
  let e := runTurns Math_cos Math_sin Math_PI requests initialEngine in
  isAnimating e = false /\ inFlight e = None /\ cubeInvariant (cubeState e) /\
  NoDup (id <$> cubeState e).
Proof.
  simpl. unfold runTurns.
  cut (let e := foldl (fun e r =>
                         awaitedTurn Math_cos Math_sin Math_PI
                           (reqFace r) (reqClockwise r) (reqSchedule r) e)
                      initialEngine requests in
       isAnimating e = false /\ inFlight e = None /\ cubeInvariant (cubeState e)).
  { simpl. intros (H1 & H2 & H3). repeat split; try assumption; try apply H3.
    destruct H3 as (_ & _ & _ & -> & _).
    apply (bool_decide_unpack _). vm_compute. exact I. }
  simpl.
  assert (Hgen : forall e0,
             isAnimating e0 = false -> inFlight e0 = None ->
             cubeInvariant (cubeState e0) ->
             let e := foldl (fun e r =>
                               awaitedTurn Math_cos Math_sin Math_PI
                                 (reqFace r) (reqClockwise r) (reqSchedule r) e)
                            e0 requests in
             isAnimating e = false /\ inFlight e = None /\ cubeInvariant (cubeState e)).
  { induction Hcomplete as [|r requests Hr _ IH]; intros e0 Hidle Hnone Hinv; simpl.
    - auto.
    - apply IH; rewrite awaitedTurn_result by assumption; simpl; trivial.
      now apply committedTurn_invariant. }
  apply Hgen; [reflexivity|reflexivity|apply initializeCube_invariant].
Qed.

Lemma reachable_states_invariant_witness :
  let s := {| begins := 0; frameTimes := [16; 250]; ends := 516 |} in
  let e := runTurns (fun a => 1 - a * a / 2) (fun a => a) (355 # 113)
             [ {| reqFace := front; reqClockwise := true; reqSchedule := s |};
               {| reqFace := top; reqClockwise := false; reqSchedule := s |};
               {| reqFace := left; reqClockwise := true; reqSchedule := s |} ]
             initialEngine in
  isAnimating e = false /\ inFlight e = None /\ cubeInvariant (cubeState e) /\
  NoDup (id <$> cubeState e).
Proof.
  apply (reachable_states_invariant (fun a => 1 - a * a / 2) (fun a => a) (355 # 113)
           [ {| reqFace := front; reqClockwise := true;
                reqSchedule := {| begins := 0; frameTimes := [16; 250]; ends := 516 |} |};
             {| reqFace := top; reqClockwise := false;
                reqSchedule := {| begins := 0; frameTimes := [16; 250]; ends := 516 |} |};
             {| reqFace := left; reqClockwise := true;
                reqSchedule := {| begins := 0; frameTimes := [16; 250]; ends := 516 |} |} ]).
  repeat constructor; unfold completes, Qle; simpl; lia.
Defined.

(** ** More on the two transforms *)

(** A quarter turn is a rigid motion about its axis: it keeps the
    coordinate on the axis and the distance from the centre of the cube,
    for every axis name (an unknown axis leaves the position alone). *)
Theorem rotatePosition_rigid (p : vec3) (axis : string) (cw : bool) :
  let '(x, y, z) := p in
  let '(x', y', z') := rotatePosition p axis cw in
  axisCoordinate axis (rotatePosition p axis cw) = axisCoordinate axis p /\
  x' * x' + y' * y' + z' * z' == x * x + y * y + z * z.
Proof.
  destruct p as [[x y] z]. unfold rotatePosition, axisCoordinate.
  switch_axis axis; destruct cw; (split; [reflexivity|ring]).
Qed.

(** Two quarter turns make the same half turn in either direction, and
    four make a full turn, for positions on every axis name and for
    arrays of six colours. *)
Theorem half_and_full_turns (p : vec3) (colors : list Js.value) (axis : string)
    (cw : bool) (Hsix : length colors = 6%nat) :
  let rp q := rotatePosition q axis in
  let rc c := rotateColors c axis in
  rp (rp p true) true = rp (rp p false) false /\
  rc (rc colors true) true = rc (rc colors false) false /\
  rp (rp (rp (rp p cw) cw) cw) cw = p /\
  rc (rc (rc (rc colors cw) cw) cw) cw = colors.
Proof.
  destruct p as [[x y] z].
  destruct (length_six _ Hsix) as (c0 & c1 & c2 & c3 & c4 & c5 & ->).
  simpl. unfold rotatePosition, rotateColors.
  switch_axis axis; destruct cw; rewrite ?Qopp_opp_eq; repeat split; reflexivity.
Qed.

Lemma half_and_full_turns_witness :
  let rp q := rotatePosition q "x" in
  let rc c := rotateColors c "x" in
  rp (rp (1, -(1), 0) true) true = rp (rp (1, -(1), 0) false) false /\
  rc (rc (solvedColors 1 (-1) 0) true) true
  = rc (rc (solvedColors 1 (-1) 0) false) false /\
  rp (rp (rp (rp (1, -(1), 0) false) false) false) false = (1, -(1), 0) /\
  rc (rc (rc (rc (solvedColors 1 (-1) 0) false) false) false) false
  = solvedColors 1 (-1) 0.
Proof.
  apply (half_and_full_turns (1, -(1), 0) (solvedColors 1 (-1) 0) "x" false).
  reflexivity.
Defined.

Lemma length_set (a : list Js.value) (i : nat) (v : Js.value) :
  length (Js.set a i v) = Nat.max (length a) (S i).
Proof.
  unfold Js.set. destruct (Nat.ltb_spec i (length a)).
  - rewrite length_insert. lia.
  - rewrite !length_app, length_replicate. simpl. lia.
Qed.

(** [rotateColors] never shortens its array: an array with at least six
    entries keeps its length, a shorter one comes back extended to the
    highest slot the axis writes (six entries for x and y, four for z). *)
Theorem rotateColors_length (colors : list Js.value) (axis : string) (cw : bool)
    (Haxis : axis ∈ axes) :
  length (rotateColors colors axis cw)
  = Nat.max (length colors) (if String.eqb axis "z" then 4 else 6).
Proof.
  destruct (elem_of_axes _ Haxis) as [-> | [-> | ->]]; destruct cw;
    unfold rotateColors, cycle4; simpl; rewrite !length_set; lia.
Qed.

Lemma rotateColors_length_witness :
  length (rotateColors [Js.str "a"; Js.str "b"] "y" true)
  = Nat.max (length [Js.str "a"; Js.str "b"]) (if String.eqb "y" "z" then 4 else 6).
Proof.
  apply (rotateColors_length [Js.str "a"; Js.str "b"] "y" true).
  unfold axes. rewrite !elem_of_cons. tauto.
Defined.

(** ** More on the move generator *)

Lemma Qfloor_unique (q : Q) (n : Z) :
  inject_Z n <= q -> q < inject_Z (n + 1) -> Qfloor q = n.
Proof.
  intros Hlo Hhi. apply Z.le_antisymm.
  - apply Z.lt_succ_r. rewrite Zlt_Qlt.
    apply Qle_lt_trans with q; [apply Qfloor_le|exact Hhi].
  - rewrite <- (Qfloor_Z n). now apply Qfloor_resp_le.
Qed.

(** [pickFace] cuts the line into sixths, as far as doubles allow: a
    value from the i-th sixth of [0, 1) that stays 2^-53 below the end of
    that sixth picks the i-th entry of [faces].  Within 2^-53 below the
    end the double product can round up to the next integer, and the
    next face is picked: see [pickFace_rounds_up]. *)
Theorem pickFace_sixths (r : Q) (i : Z)
    (Hi : (0 <= i < 6)%Z)
    (Hlo : inject_Z i / 6 <= r)
    (Hhi : r <= inject_Z (i + 1) / 6 - (1 # 9007199254740992)) :
  pickFace r = faces !! Z.to_nat i.
Proof.
  rewrite inject_Z_plus in Hhi. change (inject_Z 1) with 1 in Hhi.
  unfold Qdiv in Hlo, Hhi. change (/ 6) with (1 # 6) in Hlo, Hhi.
  assert (Hi0 : 0 <= inject_Z i).
  { change 0 with (inject_Z 0). rewrite <- Zle_Qle. lia. }
  assert (Hi5 : inject_Z i <= 5).
  { change 5 with (inject_Z 5). rewrite <- Zle_Qle. lia. }
  assert (Hr0 : 0 <= r) by lra.
  assert (Hr8 : r * 6 < 8) by lra.
  assert (Hfloor : Qfloor (Js.mul r 6) = i).
  { apply Qfloor_unique.
    - apply (mul_six_between r i Hr0 Hr8). lra.
    - apply (mul_six_between r (i + 1) Hr0 Hr8).
      rewrite inject_Z_plus. change (inject_Z 1) with 1. lra. }
  unfold pickFace. change (inject_Z (Z.of_nat (length faces))) with 6.
  rewrite Hfloor.
  destruct (Z.ltb_spec i 0); [lia|reflexivity].
Qed.

Lemma pickFace_sixths_witness :
  pickFace (3 # 4) = faces !! Z.to_nat 4.
Proof.
  apply (pickFace_sixths (3 # 4) 4); [lia|unfold Qle; simpl; lia..].
Defined.

(** The largest double below 5/6 is in the fifth sixth, yet its product
    with 6 rounds to the double 5 and the sixth face is picked. *)
Example pickFace_rounds_up :
  (3752999689475413 # 4503599627370496) < 5 / 6 /\
  pickFace (3752999689475413 # 4503599627370496) = Some left.
Proof. split; reflexivity. Qed.

(** The face of a generated move is the first value drawn in its
    [do ... while] loop that differs from the face of the move before:
    every draw the loop rejected picked that face again. *)
Theorem drawFace_accepts_first_other_face (rnd : nat -> Q) (fuel k : nat)
    (lastFace : option Face) (f : Face) (k1 : nat)
    (Hrun : drawFace rnd fuel k lastFace = Done (f, k1)) :
  (k < k1)%nat /\
  pickFace (rnd (k1 - 1)%nat) = Some f /\
  Some f <> lastFace /\
  (forall j, (k <= j < k1 - 1)%nat -> pickFace (rnd j) = lastFace).
Proof.
  destruct (drawFace_done rnd fuel k lastFace f k1 Hrun) as (H1 & H2 & H3 & H4 & _).
  auto.
Qed.

Lemma drawFace_accepts_first_other_face_witness :
  (2 < 4)%nat /\
  pickFace (alternatingSource (4 - 1)%nat) = Some bottom /\
  Some bottom <> Some front /\
  (forall j, (2 <= j < 4 - 1)%nat -> pickFace (alternatingSource j) = Some front).
Proof.
  apply (drawFace_accepts_first_other_face alternatingSource 2 2 (Some front) bottom 4).
  reflexivity.
Defined.

Lemma generateMoves_done (rnd : nat -> Q) (fuel n k : nat) (lastFace : option Face)
    (moves : list ShuffleMove) (k' : nat) :
  generateMoves rnd fuel n k lastFace = Done (moves, k') ->
  length moves = n /\
  noImmediateRepeat moves /\
  (forall m, moves !! 0%nat = Some m -> Some (face m) <> lastFace) /\
  (k + 2 * n <= k')%nat /\
  (forall fuel', (fuel <= fuel')%nat ->
     generateMoves rnd fuel' n k lastFace = Done (moves, k')).
Proof.
  revert k lastFace moves k'. induction n as [|n IH]; intros k lastFace moves k' Hrun.
  - simpl in Hrun. injection Hrun as <- <-.
    split; [reflexivity|]. split; [intros i m1 m2 H; discriminate H|].
    split; [intros m H; discriminate H|]. split; [lia|reflexivity].
  - simpl in Hrun.
    destruct (drawFace rnd fuel k lastFace) as [[f k1]| |] eqn:Hdraw;
      try discriminate Hrun.
    destruct (generateMoves rnd fuel n (S k1) (Some f)) as [[rest k2]| |] eqn:Hrest;
      try discriminate Hrun.
    injection Hrun as <- <-.
    destruct (drawFace_done rnd fuel k lastFace f k1 Hdraw)
      as (Hlt & _ & Hdiff & _ & Hmono1).
    destruct (IH _ _ _ _ Hrest) as (Hlen & Hrep & Hhead & Hcount & Hmono2).
    split; [simpl; now rewrite Hlen|]. split; [|split; [|split]].
    + intros [|i] m1 m2 H1 H2; simpl in H1, H2.
      * injection H1 as <-. simpl. intros Heq. apply (Hhead m2 H2). now rewrite Heq.
      * now apply (Hrep i).
    + intros m Hm. simpl in Hm. injection Hm as <-. exact Hdiff.
    + lia.
    + intros fuel' Hfuel. simpl. rewrite (Hmono1 fuel' Hfuel).
      now rewrite (Hmono2 fuel' Hfuel).
Qed.

(** Whatever the random source, when the generation loop ends it has
    produced the requested number of moves with no face twice in a row,
    it has drawn at least two values per move, and running it with more
    fuel gives the same moves. *)
Theorem generateMoves_result (rnd : nat -> Q) (fuel n k : nat)
    (lastFace : option Face) (moves : list ShuffleMove) (k' : nat)
    (Hrun : generateMoves rnd fuel n k lastFace = Done (moves, k')) :
  length moves = n /\
  noImmediateRepeat moves /\
  (k + 2 * n <= k')%nat /\
  (forall fuel', (fuel <= fuel')%nat ->
     generateMoves rnd fuel' n k lastFace = Done (moves, k')).
Proof.
  destruct (generateMoves_done rnd fuel n k lastFace moves k' Hrun)
    as (H1 & H2 & _ & H3 & H4).
  auto.
Qed.

Lemma generateMoves_result_witness :
  let moves := [ {| face := front; clockwise := false |};
                 {| face := bottom; clockwise := false |};
                 {| face := front; clockwise := false |} ] in
  length moves = 3%nat /\
  noImmediateRepeat moves /\
  (0 + 2 * 3 <= 8)%nat /\
  (forall fuel', (2 <= fuel')%nat ->
     generateMoves alternatingSource fuel' 3 0 None = Done (moves, 8%nat)).
Proof.
  apply (generateMoves_result alternatingSource 2 3 0 None
           [ {| face := front; clockwise := false |};
             {| face := bottom; clockwise := false |};
             {| face := front; clockwise := false |} ] 8).
  reflexivity.
Defined.

(** ** Animation frames *)

Lemma framePiece_from_snapshot (Math_cos Math_sin : Q -> Q) (f : Face) (angle : Q)
    (orig origRot : vec3) (p1 p2 : CubePieceState) :
  id p1 = id p2 -> colors p1 = colors p2 ->
  animationRotation p1 = animationRotation p2 ->
  framePiece Math_cos Math_sin f angle orig origRot p1
  = framePiece Math_cos Math_sin f angle orig origRot p2.
Proof.
  intros Hid Hcol Hani. destruct orig as [[ox oy] oz], origRot as [[rx ry] rz].
  destruct f; simpl; unfold set_rotation, set_position; simpl;
    now rewrite Hid, Hcol, Hani.
Qed.

Lemma framePieces_from_snapshot (Math_cos Math_sin : Q -> Q) (f : Face) (angle : Q)
    (st st1 st2 : list CubePieceState) :
  sameButMotion f st st1 -> sameButMotion f st st2 ->
  framePieces Math_cos Math_sin f angle (selectPieces f 0 st) st1
  = framePieces Math_cos Math_sin f angle (selectPieces f 0 st) st2.
Proof.
  intros H1 H2. apply list_eq. intros i. unfold framePieces.
  rewrite !(forEach_selected_lookup
              (fun s => framePiece Math_cos Math_sin f angle s.1.2 s.2)).
  apply Forall2_lookup with (i := i) in H1.
  apply Forall2_lookup with (i := i) in H2.
  destruct H1 as [p p1 (Hid1 & Hcol1 & Hani1 & Hsame1)|];
    inversion H2 as [p' p2 (Hid2 & Hcol2 & Hani2 & Hsame2) Hp Hp2|]; subst;
    [|reflexivity].
  destruct (shouldRotate f p) eqn:Hsel; simpl.
  - f_equal. apply framePiece_from_snapshot; congruence.
  - now rewrite Hsame1, Hsame2.
Qed.

Lemma animate_from_snapshot (Math_cos Math_sin : Q -> Q) (Math_PI : Q)
    (f : Face) (cw : bool) (start t : Q) (st0 : list CubePieceState) (sh : bool)
    (e1 e2 : Engine) :
  turning f cw start st0 sh e1 -> turning f cw start st0 sh e2 ->
  animate Math_cos Math_sin Math_PI t e1 = animate Math_cos Math_sin Math_PI t e2.
Proof.
  intros (st1 & H1 & ->) (st2 & H2 & ->). unfold animate. simpl.
  destruct (Qle_bool 1 _); simpl.
  - now rewrite !commitPieces_after_motion.
  - now rewrite (framePieces_from_snapshot _ _ f _ st0 st1 st2).
Qed.

Lemma frames_stay_turning (Math_cos Math_sin : Q -> Q) (Math_PI : Q)
    (f : Face) (cw : bool) (start : Q) (frames : list Q)
    (st0 : list CubePieceState) (sh : bool) (e : Engine) :
  Forall (fun t => t < start + animationDuration) frames ->
  turning f cw start st0 sh e ->
  turning f cw start st0 sh
    (foldl (fun e t => animate Math_cos Math_sin Math_PI t e) e frames).
Proof.
  intros Hearly. revert e. induction Hearly as [|t frames Ht _ IH]; intros e He; simpl.
  - exact He.
  - apply IH. destruct He as (st & Hrel & ->). unfold animate. simpl.
    assert (Hprog : Qle_bool 1 (Js.Math_min ((t - start) / animationDuration) 1) = false).
    { apply not_true_iff_false. rewrite Qle_bool_iff. unfold Js.Math_min.
      assert (Hlt : (t - start) / animationDuration < 1).
      { apply Qlt_shift_div_r; [reflexivity|]. unfold animationDuration in *. lra. }
      destruct (Qle_bool _ 1) eqn:Hle; [lra|].
      apply not_true_iff_false in Hle. rewrite Qle_bool_iff in Hle. lra. }
    rewrite Hprog. simpl. eexists. split; [|reflexivity].
    now apply framePieces_motion.
Qed.

(** A frame is computed from the positions and rotations snapshotted when
    the turn was requested, not from what the frames before it left: as
    long as those ran before the end of the animation, the engine after
    the frame at time [t] is the same as if it had been the only frame. *)
Theorem frames_do_not_accumulate (Math_cos Math_sin : Q -> Q) (Math_PI : Q)
    (f : Face) (cw : bool) (start : Q) (frames : list Q) (t : Q) (e : Engine)
    (Hidle : isAnimating e = false)
    (Hearly : Forall (fun t' => t' < start + animationDuration) frames) :
  runTurn Math_cos Math_sin Math_PI f cw start (frames ++ [t]) e
  = runTurn Math_cos Math_sin Math_PI f cw start [t] e.
Proof.
  unfold runTurn. rewrite foldl_app. simpl.
  apply (animate_from_snapshot _ _ _ f cw start t (cubeState e) (isShuffling e)).
  - apply frames_stay_turning; [exact Hearly|]. now apply rotateFace_turning.
  - now apply rotateFace_turning.
Qed.

Lemma frames_do_not_accumulate_witness :
  runTurn (fun a => 1 - a * a / 2) (fun a => a) (355 # 113)
    front true 0 ([100; 200] ++ [300]) initialEngine
  = runTurn (fun a => 1 - a * a / 2) (fun a => a) (355 # 113)
      front true 0 [300] initialEngine.
Proof.
  apply (frames_do_not_accumulate (fun a => 1 - a * a / 2) (fun a => a) (355 # 113)
           front true 0 [100; 200] 300 initialEngine).
  - reflexivity.
  - repeat constructor; unfold Qlt; simpl; lia.
Defined.

(** ** The draggable control panel *)

Lemma Qlt_bool_iff (a b : Q) : Qlt_bool a b = true <-> a < b.
Proof.
  unfold Qlt_bool. rewrite negb_true_iff, <- not_true_iff_false, Qle_bool_iff.
  split; intros H; lra.
Qed.






Lemma snap_axis (pos extent : Q) :
  let final :=
    if Qlt_bool (extent - 50) pos then extent - 20
    else if Qlt_bool pos 50 then 20 else pos in
  (40 <= extent -> 20 <= final /\ final <= extent - 20) /\
  (extent < 20 -> 0 <= pos -> final = extent - 20 /\ final < 0).
Proof.
  simpl.
  destruct (Qlt_bool (extent - 50) pos) eqn:Hright;
    [apply Qlt_bool_iff in Hright
    |apply not_true_iff_false in Hright; rewrite Qlt_bool_iff in Hright];
    (destruct (Qlt_bool pos 50) eqn:Hleft;
     [apply Qlt_bool_iff in Hleft
     |apply not_true_iff_false in Hleft; rewrite Qlt_bool_iff in Hleft]);
    split; intros; try split; try reflexivity; lra.
Qed.



(** In a viewport less than 20 pixels wider than the panel, releasing the
    panel anywhere at or right of the left edge applies the right-edge
    rule last and moves the panel partly off the screen to the left. *)
Theorem panel_release_narrow_viewport (rect : Panel.DOMRect) (win : Panel.Viewport)
    (s : Panel.State)
    (Hdrag : Panel.dragStateRef s = true)
    (Hnarrow : Panel.innerWidth win - Panel.width rect < 20)
    (Hpos : 0 <= Panel.x (Panel.position s)) :
  let s' := Panel.handleMouseUp (Some rect) win s in
  Panel.x (Panel.position s') = Panel.innerWidth win - Panel.width rect - 20 /\
  Panel.x (Panel.position s') < 0.
Proof.
  simpl. unfold Panel.handleMouseUp. rewrite Hdrag. simpl.
  destruct (snap_axis (Panel.x (Panel.position s))
              (Panel.innerWidth win - Panel.width rect)) as [_ Hx].
  simpl in Hx. exact (Hx Hnarrow Hpos).
Qed.

Lemma panel_release_narrow_viewport_witness :
  let rect := {| Panel.left := 0; Panel.top := 20;
                 Panel.width := 310; Panel.height := 400 |} in
  let win := {| Panel.innerWidth := 320; Panel.innerHeight := 720 |} in
  let s := {| Panel.position := {| Panel.x := 0; Panel.y := 100 |};
              Panel.isDragging := true;
              Panel.dragOffset := {| Panel.x := 10; Panel.y := 10 |};
              Panel.dragStateRef := true |} in
  let s' := Panel.handleMouseUp (Some rect) win s in
  Panel.x (Panel.position s') = Panel.innerWidth win - Panel.width rect - 20 /\
  Panel.x (Panel.position s') < 0.
Proof.
  apply (panel_release_narrow_viewport
           {| Panel.left := 0; Panel.top := 20; Panel.width := 310; Panel.height := 400 |}
           {| Panel.innerWidth := 320; Panel.innerHeight := 720 |}
           {| Panel.position := {| Panel.x := 0; Panel.y := 100 |};
              Panel.isDragging := true;
              Panel.dragOffset := {| Panel.x := 10; Panel.y := 10 |};
              Panel.dragStateRef := true |}).
  - reflexivity.
  - unfold Qlt. simpl. lia.
  - unfold Qle. simpl. lia.
Defined.

(** ** The scrambler's timers *)

Lemma stopShuffle_inactive (s : Scrambler.State) :
  Scrambler.shuffleActiveRef (Scrambler.stopShuffle s) = false /\
  Scrambler.isShuffling (Scrambler.stopShuffle s) = false /\
  Scrambler.dispatched (Scrambler.stopShuffle s) = Scrambler.dispatched s.
Proof.
  unfold Scrambler.stopShuffle. split; [reflexivity|]. split; [reflexivity|].
  simpl. destruct (0 <? length (Scrambler.shuffleTimeouts s))%nat; [|reflexivity].
  simpl. generalize (Scrambler.shuffleTimeouts s). intros ids. revert s.
  induction ids as [|i ids IH]; intros s; [reflexivity|].
  simpl. now rewrite IH.
Qed.

Lemma fireNext_inactive (now : Q) (s : Scrambler.State) :
  Scrambler.shuffleActiveRef s = false ->
  Scrambler.shuffleActiveRef (Scrambler.fireNext now s) = false /\
  Scrambler.dispatched (Scrambler.fireNext now s) = Scrambler.dispatched s.
Proof.
  intros Hoff. unfold Scrambler.fireNext.
  destruct (Scrambler.earliest (Scrambler.timers s)) as [t|]; [|auto].
  destruct (Qle_bool (Scrambler.due t) now); [|auto].
  destruct (Scrambler.callback t) as [run move|]; simpl.
  - rewrite Hoff. simpl. auto.
  - auto.
Qed.

Lemma inactive_stays_inactive (events : list Scrambler.Event) (s : Scrambler.State) :
  Scrambler.shuffleActiveRef s = false ->
  Scrambler.dispatched (foldl Scrambler.step s events) = Scrambler.dispatched s /\
  Scrambler.shuffleActiveRef (foldl Scrambler.step s events) = false.
Proof.
  revert s. induction events as [|ev events IH]; intros s Hoff; simpl; [auto|].
  destruct ev as [now|]; simpl.
  - destruct (fireNext_inactive now s Hoff) as [Hoff' Hlog'].
    rewrite <- Hlog'. now apply IH.
  - destruct (stopShuffle_inactive s) as (Hoff' & _ & Hlog').
    rewrite <- Hlog'. now apply IH.
Qed.

(** After [stopShuffle], whatever timers the browser still runs and
    however often [stopShuffle] is called again, no move is dispatched
    and the scrambler stays inactive, until [shuffleCube] is called. *)
Theorem stop_ends_dispatching (s : Scrambler.State) (events : list Scrambler.Event) :
  let s' := foldl Scrambler.step (Scrambler.stopShuffle s) events in
  Scrambler.dispatched s' = Scrambler.dispatched s /\
  Scrambler.shuffleActiveRef s' = false.
Proof.
  simpl. destruct (stopShuffle_inactive s) as (Hoff & _ & Hlog).
  rewrite <- Hlog. now apply inactive_stays_inactive.
Qed.

Lemma scheduleMoves_spec (run : nat) (now : Q) (moves : list ShuffleMove) :
  forall (i : nat) (s : Scrambler.State),
    Scrambler.scheduleMoves run now i moves s =
    ({| Scrambler.isShuffling := Scrambler.isShuffling s;
        Scrambler.shuffleActiveRef := Scrambler.shuffleActiveRef s;
        Scrambler.shuffleTimeouts := Scrambler.shuffleTimeouts s;
        Scrambler.completedMoves := Scrambler.completedMoves s;
        Scrambler.timers :=
          Scrambler.timers s ++ moveTimers run now (Scrambler.nextTimeoutId s) i moves;
        Scrambler.nextTimeoutId := (Scrambler.nextTimeoutId s + length moves)%nat;
        Scrambler.dispatched := Scrambler.dispatched s |},
     seq (Scrambler.nextTimeoutId s) (length moves)).
Proof.
  induction moves as [|m rest IH]; intros i s.
  - destruct s. simpl. now rewrite app_nil_r, Nat.add_0_r.
  - simpl. rewrite IH. simpl. rewrite <- app_assoc. simpl.
    now rewrite Nat.add_succ_r.
Qed.

Lemma step_due_le (start : Q) (i : nat) :
  start + inject_Z (Z.of_nat i) * Scrambler.stepDelay
  <= start + inject_Z (Z.of_nat (S i)) * Scrambler.stepDelay.
Proof.
  rewrite Nat2Z.inj_succ. unfold Z.succ. rewrite inject_Z_plus.
  change (inject_Z 1) with 1. unfold Scrambler.stepDelay.
  assert (H : 0 <= inject_Z (Z.of_nat i)).
  { change 0 with (inject_Z 0). rewrite <- Zle_Qle. lia. }
  lra.
Qed.

Lemma earliest_moveTimers (run : nat) (start : Q) (rest : list ShuffleMove) :
  forall (i0 i : nat) (m : ShuffleMove),
    Scrambler.earliest (moveTimers run start i0 i (m :: rest))
    = Some {| Scrambler.timeoutId := i0;
              Scrambler.due := start + inject_Z (Z.of_nat i) * Scrambler.stepDelay;
              Scrambler.callback := Scrambler.dispatchMove run m |}.
Proof.
  induction rest as [|m' rest IH]; intros i0 i m; [reflexivity|].
  change (moveTimers run start i0 i (m :: m' :: rest))
    with ({| Scrambler.timeoutId := i0;
             Scrambler.due := start + inject_Z (Z.of_nat i) * Scrambler.stepDelay;
             Scrambler.callback := Scrambler.dispatchMove run m |}
          :: moveTimers run start (S i0) (S i) (m' :: rest)).
  cbn [Scrambler.earliest]. rewrite IH. cbn [Scrambler.due].
  assert (Hle : Qle_bool (start + inject_Z (Z.of_nat i) * Scrambler.stepDelay)
                  (start + inject_Z (Z.of_nat (S i)) * Scrambler.stepDelay) = true).
  { apply Qle_bool_iff, step_due_le. }
  now rewrite Hle.
Qed.

Lemma moveTimers_ids (run : nat) (start : Q) (rest : list ShuffleMove) :
  forall (i0 i : nat) (t : Scrambler.Timer),
    t ∈ moveTimers run start i0 i rest ->
    (i0 <= Scrambler.timeoutId t < i0 + length rest)%nat.
Proof.
  induction rest as [|m rest IH]; intros i0 i t Hin; simpl in Hin.
  - now apply elem_of_nil in Hin.
  - apply elem_of_cons in Hin. destruct Hin as [->|Hin]; simpl; [lia|].
    apply IH in Hin. lia.
Qed.

Lemma filter_keeps_all {A : Type} (P : A -> Prop) `{forall x, Decision (P x)}
    (l : list A) :
  (forall x, x ∈ l -> P x) -> filter P l = l.
Proof.
  induction l as [|a l IH]; intros Hall; [reflexivity|].
  rewrite filter_cons_True by (apply Hall; left).
  f_equal. apply IH. intros x Hx. apply Hall. now right.
Qed.

Lemma filter_drops_all {A : Type} (P : A -> Prop) `{forall x, Decision (P x)}
    (l : list A) :
  (forall x, x ∈ l -> ~ P x) -> filter P l = [].
Proof.
  induction l as [|a l IH]; intros Hall; [reflexivity|].
  rewrite filter_cons_False by (apply Hall; left).
  apply IH. intros x Hx. apply Hall. now right.
Qed.

(** The tick that fires the timer of a move which is not the last one. *)
Lemma fireNext_move (run : nat) (start : Q) (i0 i : nat) (m : ShuffleMove)
    (rest : list ShuffleMove) (t : Q) (s : Scrambler.State) :
  midRun run start i0 i (m :: rest) s ->
  start + inject_Z (Z.of_nat i) * Scrambler.stepDelay <= t ->
  S i <> shuffleMoves ->
  let s' := Scrambler.fireNext t s in
  midRun run start (S i0) (S i) rest s' /\
  Scrambler.dispatched s' = Scrambler.dispatched s ++ [m] /\
  Scrambler.isShuffling s' = Scrambler.isShuffling s /\
  Scrambler.shuffleTimeouts s' = Scrambler.shuffleTimeouts s /\
  Scrambler.nextTimeoutId s' = Scrambler.nextTimeoutId s.
Proof.
  intros (Hon & Htimers & Hcount) Hdue Hnotlast. simpl.
  unfold Scrambler.fireNext. rewrite Htimers, earliest_moveTimers.
  cbn [Scrambler.due Scrambler.timeoutId Scrambler.callback].
  apply Qle_bool_iff in Hdue. rewrite Hdue.
  unfold Scrambler.runCallback, Scrambler.clearTimeout. simpl.
  rewrite Hon, Htimers. simpl.
  rewrite filter_cons_False by (simpl; intros Hne; now apply Hne).
  rewrite filter_keeps_all.
  2:{ intros x Hx. apply moveTimers_ids in Hx. lia. }
  rewrite list_lookup_alter_eq, Hcount. simpl.
  destruct (decide (Some (S i) = Some shuffleMoves)) as [Heq|_]; [congruence|].
  simpl. unfold midRun. simpl. rewrite list_lookup_alter_eq, Hcount. auto.
Qed.

(** The tick that fires the timer of the last move. *)
Lemma fireNext_last_move (run : nat) (start : Q) (i0 i : nat) (m : ShuffleMove)
    (t : Q) (s : Scrambler.State) :
  midRun run start i0 i [m] s ->
  start + inject_Z (Z.of_nat i) * Scrambler.stepDelay <= t ->
  S i = shuffleMoves ->
  let s' := Scrambler.fireNext t s in
  Scrambler.timers s'
  = [ {| Scrambler.timeoutId := Scrambler.nextTimeoutId s;
         Scrambler.due := t + 600;
         Scrambler.callback := Scrambler.finishShuffle |} ] /\
  Scrambler.dispatched s' = Scrambler.dispatched s ++ [m] /\
  Scrambler.isShuffling s' = Scrambler.isShuffling s /\
  Scrambler.shuffleActiveRef s' = true.
Proof.
  intros (Hon & Htimers & Hcount) Hdue Hlast. simpl.
  unfold Scrambler.fireNext. rewrite Htimers. simpl.
  apply Qle_bool_iff in Hdue. rewrite Hdue.
  unfold Scrambler.runCallback, Scrambler.clearTimeout. simpl.
  rewrite Hon, Htimers. simpl.
  rewrite filter_cons_False by (simpl; intros Hne; now apply Hne).
  rewrite filter_nil.
  rewrite list_lookup_alter_eq, Hcount. simpl.
  destruct (decide (Some (S i) = Some shuffleMoves)) as [_|Hne]; [|congruence].
  simpl. auto.
Qed.

Lemma onTime_app (start : Q) (ticks1 ticks2 : list Q) :
  forall i,
    Scrambler.onTime start i (ticks1 ++ ticks2) <->
    Scrambler.onTime start i ticks1 /\
    Scrambler.onTime start (i + length ticks1) ticks2.
Proof.
  induction ticks1 as [|t ticks1 IH]; intros i; simpl.
  - rewrite Nat.add_0_r. tauto.
  - rewrite IH, Nat.add_succ_r. simpl. tauto.
Qed.

(** The ticks that fire the timers of the moves [pre], none of them the
    last move of the run. *)
Lemma ticks_dispatch_moves (run : nat) (start : Q) (pre : list ShuffleMove) :
  forall (post : list ShuffleMove) (i0 i : nat) (ticks : list Q) (s : Scrambler.State),
    midRun run start i0 i (pre ++ post) s ->
    length ticks = length pre ->
    Scrambler.onTime start i ticks ->
    (i + length pre < shuffleMoves)%nat ->
    let s' := foldl Scrambler.step s (Scrambler.tick <$> ticks) in
    midRun run start (i0 + length pre) (i + length pre) post s' /\
    Scrambler.dispatched s' = Scrambler.dispatched s ++ pre /\
    Scrambler.isShuffling s' = Scrambler.isShuffling s /\
    Scrambler.shuffleTimeouts s' = Scrambler.shuffleTimeouts s /\
    Scrambler.nextTimeoutId s' = Scrambler.nextTimeoutId s.
Proof.
  induction pre as [|m pre IH]; intros post i0 i ticks s Hmid Hlen Htime Hbound.
  - destruct ticks; [|discriminate Hlen]. simpl.
    rewrite !Nat.add_0_r, app_nil_r. auto.
  - destruct ticks as [|t ticks]; [discriminate Hlen|].
    simpl in Hlen, Htime, Hbound. destruct Htime as [Ht Htime].
    destruct (fireNext_move run start i0 i m (pre ++ post) t s Hmid Ht)
      as (Hmid' & Hlog & Hsh & Hto & Hid); [lia|].
    rewrite fmap_cons. simpl.
    destruct (IH post (S i0) (S i) ticks (Scrambler.fireNext t s) Hmid')
      as (Hmid'' & Hlog' & Hsh' & Hto' & Hid'); [lia|exact Htime|lia|].
    simpl. rewrite <- !Nat.add_succ_comm.
    split; [exact Hmid''|]. rewrite Hlog', Hlog, Hsh', Hsh, Hto', Hto, Hid', Hid.
    now rewrite <- app_assoc.
Qed.

Lemma shuffleCube_midRun (start : Q) (moves : list ShuffleMove) (s : Scrambler.State) :
  Scrambler.isShuffling s = false -> Scrambler.timers s = [] ->
  let s1 := Scrambler.shuffleCube false start moves s in
  midRun (length (Scrambler.completedMoves s)) start
         (Scrambler.nextTimeoutId s) 0 moves s1 /\
  Scrambler.dispatched s1 = Scrambler.dispatched s /\
  Scrambler.isShuffling s1 = true /\
  Scrambler.shuffleTimeouts s1 = seq (Scrambler.nextTimeoutId s) (length moves) /\
  Scrambler.nextTimeoutId s1 = (Scrambler.nextTimeoutId s + length moves)%nat.
Proof.
  intros Hidle Htimers. simpl. unfold Scrambler.shuffleCube. rewrite Hidle. simpl.
  rewrite scheduleMoves_spec. simpl. rewrite Htimers. simpl.
  unfold midRun. simpl. repeat split.
  apply list_lookup_middle. reflexivity.
Qed.

Lemma clearTimeouts_all (ids : list nat) :
  forall s : Scrambler.State,
    (forall t, t ∈ Scrambler.timers s -> Scrambler.timeoutId t ∈ ids) ->
    Scrambler.timers (foldl (fun s i => Scrambler.clearTimeout i s) s ids) = [].
Proof.
  induction ids as [|i ids IH]; intros s Hall; simpl.
  - destruct (Scrambler.timers s) as [|t ts]; [reflexivity|].
    exfalso. eapply not_elem_of_nil. apply (Hall t). left.
  - apply IH. intros t Ht. unfold Scrambler.clearTimeout in Ht. simpl in Ht.
    apply list_elem_of_filter in Ht. destruct Ht as [Hne Ht].
    specialize (Hall t Ht). apply elem_of_cons in Hall.
    destruct Hall as [Heq|Hin]; [contradiction|exact Hin].
Qed.

(** A shuffle left alone runs to its end: with every timer fired once it
    is due, the twenty moves are dispatched in the order they were
    generated, the scrambler stays busy until the timer set after the last
    move has fired, and is idle with no timer left after it. *)
Theorem shuffle_runs_to_completion (s : Scrambler.State) (start : Q)
    (moves : list ShuffleMove) (ticks : list Q) (tlast tfinish : Q)
    (Hidle : Scrambler.isShuffling s = false)
    (Htimers : Scrambler.timers s = [])
    (Hmoves : length moves = shuffleMoves)
    (Hticks : length (ticks ++ [tlast]) = shuffleMoves)
    (Htime : Scrambler.onTime start 0 (ticks ++ [tlast]))
    (Hfinish : tlast + 600 <= tfinish) :
  let s2 := foldl Scrambler.step (Scrambler.shuffleCube false start moves s)
              (Scrambler.tick <$> ticks ++ [tlast]) in
  let s3 := Scrambler.fireNext tfinish s2 in
  Scrambler.dispatched s2 = Scrambler.dispatched s ++ moves /\
  Scrambler.isShuffling s2 = true /\
  Scrambler.dispatched s3 = Scrambler.dispatched s ++ moves /\
  Scrambler.isShuffling s3 = false /\
  Scrambler.shuffleActiveRef s3 = false /\
  Scrambler.shuffleTimeouts s3 = [] /\
  Scrambler.timers s3 = [].
Proof.
  simpl.
  destruct (shuffleCube_midRun start moves s Hidle Htimers)
    as (Hmid & Hlog & Hbusy & _ & _).
  destruct (exists_last (l := moves)) as (pre & m & ->).
  { intros ->. discriminate Hmoves. }
  rewrite length_app in Hmoves, Hticks. simpl in Hmoves, Hticks.
  apply onTime_app in Htime. destruct Htime as [Htime [Hlast _]].
  simpl in Hlast.
  rewrite fmap_app, foldl_app. simpl.
  destruct (ticks_dispatch_moves _ start pre [m] _ 0 ticks _ Hmid)
    as (Hmid' & Hlog' & Hbusy' & _ & _); [lia|exact Htime|simpl; lia|].
  simpl in Hmid'.
  destruct (fireNext_last_move _ start _ _ m tlast _ Hmid')
    as (Htimers2 & Hlog2 & Hbusy2 & Hon2).
  { replace (length pre) with (length ticks) by lia. exact Hlast. }
  { lia. }
  simpl in Htimers2, Hlog2, Hbusy2, Hon2.
  assert (Hlogs : Scrambler.dispatched
                    (Scrambler.fireNext tlast
                       (foldl Scrambler.step
                          (Scrambler.shuffleCube false start (pre ++ [m]) s)
                          (Scrambler.tick <$> ticks)))
                  = Scrambler.dispatched s ++ pre ++ [m]).
  { rewrite Hlog2, Hlog', Hlog. now rewrite app_assoc. }
  split; [exact Hlogs|]. split; [now rewrite Hbusy2, Hbusy'|].
  remember (Scrambler.fireNext tlast
              (foldl Scrambler.step
                 (Scrambler.shuffleCube false start (pre ++ [m]) s)
                 (Scrambler.tick <$> ticks))) as s2 eqn:Hs2.
  clear Hs2. unfold Scrambler.fireNext. rewrite Htimers2. simpl.
  apply Qle_bool_iff in Hfinish. rewrite Hfinish. simpl.
  rewrite Htimers2. simpl.
  rewrite filter_cons_False by (simpl; intros Hne; now apply Hne).
  rewrite filter_nil. auto.
Qed.

Lemma shuffle_runs_to_completion_witness :
  let s2 := foldl Scrambler.step
              (Scrambler.shuffleCube false 0 sampleMoves Scrambler.initialState)
              (Scrambler.tick <$> sampleTicks 19 ++ [11400]) in
  let s3 := Scrambler.fireNext 12000 s2 in
  Scrambler.dispatched s2 = Scrambler.dispatched Scrambler.initialState ++ sampleMoves /\
  Scrambler.isShuffling s2 = true /\
  Scrambler.dispatched s3 = Scrambler.dispatched Scrambler.initialState ++ sampleMoves /\
  Scrambler.isShuffling s3 = false /\
  Scrambler.shuffleActiveRef s3 = false /\
  Scrambler.shuffleTimeouts s3 = [] /\
  Scrambler.timers s3 = [].
Proof.
  apply (shuffle_runs_to_completion Scrambler.initialState 0 sampleMoves
           (sampleTicks 19) 11400 12000).
  - reflexivity.
  - reflexivity.
  - reflexivity.
  - reflexivity.
  - simpl. repeat split; unfold Qle; simpl; lia.
  - unfold Qle. simpl. lia.
Defined.

(** Stopping a shuffle under way: the moves whose timers have fired are
    the ones dispatched, [stopShuffle] cancels every pending timer and
    clears the busy flag, and nothing that happens afterwards dispatches
    another move. *)
Theorem stop_mid_shuffle (s : Scrambler.State) (start : Q)
    (pre post : list ShuffleMove) (ticks : list Q) (events : list Scrambler.Event)
    (Hidle : Scrambler.isShuffling s = false)
    (Htimers : Scrambler.timers s = [])
    (Hmoves : length (pre ++ post) = shuffleMoves)
    (Hpost : post <> [])
    (Hticks : length ticks = length pre)
    (Htime : Scrambler.onTime start 0 ticks) :
  let s2 := foldl Scrambler.step (Scrambler.shuffleCube false start (pre ++ post) s)
              (Scrambler.tick <$> ticks) in
  let s3 := Scrambler.stopShuffle s2 in
  Scrambler.isShuffling s2 = true /\
  Scrambler.dispatched s2 = Scrambler.dispatched s ++ pre /\
  Scrambler.timers s3 = [] /\
  Scrambler.isShuffling s3 = false /\
  Scrambler.dispatched (foldl Scrambler.step s3 events) = Scrambler.dispatched s ++ pre.
Proof.
  simpl.
  destruct (shuffleCube_midRun start (pre ++ post) s Hidle Htimers)
    as (Hmid & Hlog & Hbusy & Hto & _).
  assert (Hbound : (0 + length pre < shuffleMoves)%nat).
  { rewrite length_app in Hmoves. destruct post; [contradiction|]. simpl in Hmoves. lia. }
  destruct (ticks_dispatch_moves _ start pre post _ 0 ticks _ Hmid Hticks Htime Hbound)
    as (Hmid' & Hlog' & Hbusy' & Hto' & _).
  simpl in Hmid', Hlog', Hbusy', Hto'.
  remember (foldl Scrambler.step (Scrambler.shuffleCube false start (pre ++ post) s)
              (Scrambler.tick <$> ticks)) as s2 eqn:Hs2.
  clear Hs2.
  split; [now rewrite Hbusy', Hbusy|]. split; [now rewrite Hlog', Hlog|].
  destruct (stopShuffle_inactive s2) as (Hoff & Hidle3 & Hlog3).
  split; [|split; [exact Hidle3|]].
  - unfold Scrambler.stopShuffle. simpl. rewrite Hto', Hto.
    rewrite length_seq, length_app.
    destruct (Nat.ltb_spec 0 (length pre + length post)) as [_|Hzero].
    2:{ destruct post; [contradiction|]. simpl in Hzero. lia. }
    simpl. apply clearTimeouts_all. intros t Ht.
    destruct Hmid' as (_ & Hts & _). rewrite Hts in Ht.
    apply moveTimers_ids in Ht. apply elem_of_seq. lia.
  - destruct (inactive_stays_inactive events _ Hoff) as [Hkeep _].
    now rewrite Hkeep, Hlog3, Hlog', Hlog.
Qed.

Lemma stop_mid_shuffle_witness :
  let s2 := foldl Scrambler.step
              (Scrambler.shuffleCube false 0 (take 3 sampleMoves ++ drop 3 sampleMoves)
                 Scrambler.initialState)
              (Scrambler.tick <$> sampleTicks 3) in
  let s3 := Scrambler.stopShuffle s2 in
  Scrambler.isShuffling s2 = true /\
  Scrambler.dispatched s2
  = Scrambler.dispatched Scrambler.initialState ++ take 3 sampleMoves /\
  Scrambler.timers s3 = [] /\
  Scrambler.isShuffling s3 = false /\
  Scrambler.dispatched
    (foldl Scrambler.step s3 [Scrambler.tick 1800; Scrambler.stop; Scrambler.tick 20000])
  = Scrambler.dispatched Scrambler.initialState ++ take 3 sampleMoves.
Proof.
  apply (stop_mid_shuffle Scrambler.initialState 0 (take 3 sampleMoves)
           (drop 3 sampleMoves) (sampleTicks 3)
           [Scrambler.tick 1800; Scrambler.stop; Scrambler.tick 20000]).
  - reflexivity.
  - reflexivity.
  - reflexivity.
  - discriminate.
  - reflexivity.
  - simpl. repeat split; unfold Qle; simpl; lia.
Defined.

Lemma fireNext_last_move_ids (run : nat) (start : Q) (i0 i : nat) (m : ShuffleMove)
    (t : Q) (s : Scrambler.State) :
  midRun run start i0 i [m] s ->
  start + inject_Z (Z.of_nat i) * Scrambler.stepDelay <= t ->
  S i = shuffleMoves ->
  let s' := Scrambler.fireNext t s in
  Scrambler.nextTimeoutId s' = S (Scrambler.nextTimeoutId s) /\
  Scrambler.shuffleTimeouts s' = Scrambler.shuffleTimeouts s /\
  length (Scrambler.completedMoves s') = length (Scrambler.completedMoves s).
Proof.
  intros (Hon & Htimers & Hcount) Hdue Hlast. simpl.
  unfold Scrambler.fireNext. rewrite Htimers. simpl.
  apply Qle_bool_iff in Hdue. rewrite Hdue.
  unfold Scrambler.runCallback, Scrambler.clearTimeout. simpl.
  rewrite Hon. simpl.
  rewrite list_lookup_alter_eq, Hcount. simpl.
  destruct (decide (Some (S i) = Some shuffleMoves)) as [_|Hne]; [|congruence].
  simpl. now rewrite length_alter.
Qed.

Lemma earliest_behind (t : Scrambler.Timer) (ts : list Scrambler.Timer)
    (t' : Scrambler.Timer) :
  Scrambler.earliest ts = Some t' ->
  Scrambler.earliest (t :: ts)
  = if Qle_bool (Scrambler.due t) (Scrambler.due t') then Some t else Some t'.
Proof. intros H. simpl. now rewrite H. Qed.

Lemma shuffleCube_fields (start : Q) (moves : list ShuffleMove) (s : Scrambler.State) :
  Scrambler.isShuffling s = false ->
  let s1 := Scrambler.shuffleCube false start moves s in
  Scrambler.isShuffling s1 = true /\
  Scrambler.shuffleActiveRef s1 = true /\
  Scrambler.timers s1
  = Scrambler.timers s
    ++ moveTimers (length (Scrambler.completedMoves s)) start
         (Scrambler.nextTimeoutId s) 0 moves /\
  Scrambler.completedMoves s1 !! length (Scrambler.completedMoves s) = Some 0%nat /\
  Scrambler.dispatched s1 = Scrambler.dispatched s.
Proof.
  intros Hidle. simpl. unfold Scrambler.shuffleCube. rewrite Hidle. simpl.
  rewrite scheduleMoves_spec. simpl. repeat split.
  apply list_lookup_middle. reflexivity.
Qed.

Lemma clearTimeouts_none (ids : list nat) :
  forall s : Scrambler.State,
    (forall t, t ∈ Scrambler.timers s -> Scrambler.timeoutId t ∉ ids) ->
    foldl (fun s i => Scrambler.clearTimeout i s) s ids = s.
Proof.
  induction ids as [|i ids IH]; intros s Hout; [reflexivity|].
  simpl. assert (Hsame : Scrambler.clearTimeout i s = s).
  { unfold Scrambler.clearTimeout. rewrite filter_keeps_all.
    - now destruct s.
    - intros t Ht Heq. apply (Hout t Ht). rewrite Heq. left. }
  rewrite Hsame. apply IH. intros t Ht Hin. apply (Hout t Ht). now right.
Qed.

Lemma stopShuffle_fields (s : Scrambler.State) :
  (forall t, t ∈ Scrambler.timers s ->
     Scrambler.timeoutId t ∉ Scrambler.shuffleTimeouts s) ->
  Scrambler.timers (Scrambler.stopShuffle s) = Scrambler.timers s /\
  Scrambler.nextTimeoutId (Scrambler.stopShuffle s) = Scrambler.nextTimeoutId s /\
  Scrambler.completedMoves (Scrambler.stopShuffle s) = Scrambler.completedMoves s.
Proof.
  intros Hout. unfold Scrambler.stopShuffle. simpl.
  destruct (0 <? length (Scrambler.shuffleTimeouts s))%nat; [|auto].
  simpl. now rewrite clearTimeouts_none.
Qed.

(** The first move of a shuffle fires while an older timer, due later,
    is still pending. *)
Lemma fireNext_before_leftover (run : nat) (start : Q) (idA idB : nat) (dueA : Q)
    (m : ShuffleMove) (rest : list ShuffleMove) (t : Q) (s : Scrambler.State) :
  Scrambler.shuffleActiveRef s = true ->
  Scrambler.timers s
  = {| Scrambler.timeoutId := idA; Scrambler.due := dueA;
       Scrambler.callback := Scrambler.finishShuffle |}
    :: moveTimers run start idB 0 (m :: rest) ->
  Scrambler.completedMoves s !! run = Some 0%nat ->
  (idA < idB)%nat -> start < dueA -> start <= t ->
  let s' := Scrambler.fireNext t s in
  Scrambler.timers s'
  = {| Scrambler.timeoutId := idA; Scrambler.due := dueA;
       Scrambler.callback := Scrambler.finishShuffle |}
    :: moveTimers run start (S idB) 1 rest /\
  Scrambler.dispatched s' = Scrambler.dispatched s ++ [m].
Proof.
  intros Hon Htimers Hcount Hids Hlater Hdue. simpl.
  unfold Scrambler.fireNext. rewrite Htimers.
  rewrite (earliest_behind _ _ _ (earliest_moveTimers run start rest idB 0 m)).
  cbn [Scrambler.due].
  assert (H1 : Qle_bool dueA (start + inject_Z (Z.of_nat 0) * Scrambler.stepDelay)
               = false).
  { apply not_true_iff_false. rewrite Qle_bool_iff.
    unfold Scrambler.stepDelay. change (inject_Z (Z.of_nat 0)) with 0. lra. }
  assert (H2 : Qle_bool (start + inject_Z (Z.of_nat 0) * Scrambler.stepDelay) t = true).
  { apply Qle_bool_iff. unfold Scrambler.stepDelay.
    change (inject_Z (Z.of_nat 0)) with 0. lra. }
  rewrite H1. cbn [Scrambler.due Scrambler.callback Scrambler.timeoutId]. rewrite H2.
  unfold Scrambler.runCallback, Scrambler.clearTimeout. simpl.
  rewrite Hon, Htimers. simpl.
  rewrite filter_cons_True by (simpl; lia).
  rewrite filter_cons_False by (simpl; intros Hne; now apply Hne).
  rewrite filter_keeps_all.
  2:{ intros x Hx. apply moveTimers_ids in Hx. lia. }
  rewrite list_lookup_alter_eq, Hcount. simpl.
  destruct (decide (Some 1%nat = Some shuffleMoves)) as [Heq|_]; [discriminate Heq|].
  simpl. auto.
Qed.

(** The older timer fires next, being due before the second move. *)
Lemma fireNext_leftover (run : nat) (start : Q) (idA idB : nat) (dueA : Q)
    (rest : list ShuffleMove) (t : Q) (s : Scrambler.State) :
  Scrambler.timers s
  = {| Scrambler.timeoutId := idA; Scrambler.due := dueA;
       Scrambler.callback := Scrambler.finishShuffle |}
    :: moveTimers run start (S idB) 1 rest ->
  (idA < idB)%nat -> dueA <= start + 600 -> dueA <= t ->
  let s' := Scrambler.fireNext t s in
  Scrambler.isShuffling s' = false /\
  Scrambler.shuffleActiveRef s' = false /\
  Scrambler.shuffleTimeouts s' = [] /\
  Scrambler.timers s' = moveTimers run start (S idB) 1 rest /\
  Scrambler.dispatched s' = Scrambler.dispatched s.
Proof.
  intros Htimers Hids Hbefore Hdue. simpl.
  assert (Hfirst : Scrambler.earliest (Scrambler.timers s)
                   = Some {| Scrambler.timeoutId := idA; Scrambler.due := dueA;
                             Scrambler.callback := Scrambler.finishShuffle |}).
  { rewrite Htimers. destruct rest as [|m1 rest]; [reflexivity|].
    rewrite (earliest_behind _ _ _ (earliest_moveTimers run start rest (S idB) 1 m1)).
    cbn [Scrambler.due].
    assert (Hle : Qle_bool dueA (start + inject_Z (Z.of_nat 1) * Scrambler.stepDelay)
                  = true).
    { apply Qle_bool_iff. unfold Scrambler.stepDelay.
      change (inject_Z (Z.of_nat 1)) with 1. lra. }
    now rewrite Hle. }
  unfold Scrambler.fireNext. rewrite Hfirst.
  cbn [Scrambler.due Scrambler.callback Scrambler.timeoutId].
  apply Qle_bool_iff in Hdue. rewrite Hdue.
  unfold Scrambler.runCallback, Scrambler.clearTimeout. simpl. rewrite Htimers.
  rewrite filter_cons_False by (simpl; intros Hne; now apply Hne).
  rewrite filter_keeps_all.
  2:{ intros x Hx. apply moveTimers_ids in Hx. simpl. lia. }
  auto.
Qed.

Lemma length_moveTimers (run : nat) (start : Q) (moves : list ShuffleMove) :
  forall i0 i, length (moveTimers run start i0 i moves) = length moves.
Proof. induction moves as [|m moves IH]; intros i0 i; simpl; [|rewrite IH]; reflexivity. Qed.

(** A shuffle started less than 600 ms after the last move of a shuffle
    that was stopped is cut short by the timer the stopped shuffle set
    after its last move, which [stopShuffle] does not cancel: the new
    shuffle dispatches its first move only and the busy flag is cleared.
    The timers of its other moves stay pending, and they dispatch nothing
    whatever timers fire and whenever [stopShuffle] is called afterwards,
    as long as [shuffleCube] is not called again. *)
Theorem leftover_timer_cuts_next_shuffle (s : Scrambler.State) (startA startB : Q)
    (movesA : list ShuffleMove) (mB : ShuffleMove) (restB : list ShuffleMove)
    (ticks : list Q) (tlast tB tF : Q) (events : list Scrambler.Event)
    (Hidle : Scrambler.isShuffling s = false)
    (Htimers : Scrambler.timers s = [])
    (HmovesA : length movesA = shuffleMoves)
    (HmovesB : length (mB :: restB) = shuffleMoves)
    (Hticks : length (ticks ++ [tlast]) = shuffleMoves)
    (Htime : Scrambler.onTime startA 0 (ticks ++ [tlast]))
    (Hafter : tlast <= startB) (Hsoon : startB < tlast + 600)
    (HtB : startB <= tB) (HtF : tlast + 600 <= tF) :
  let s2 := foldl Scrambler.step (Scrambler.shuffleCube false startA movesA s)
              (Scrambler.tick <$> ticks ++ [tlast]) in
  let s4 := Scrambler.shuffleCube false startB (mB :: restB) (Scrambler.stopShuffle s2) in
  let s6 := Scrambler.fireNext tF (Scrambler.fireNext tB s4) in
  Scrambler.isShuffling s4 = true /\
  Scrambler.isShuffling s6 = false /\
  Scrambler.shuffleTimeouts s6 = [] /\
  length (Scrambler.timers s6) = length restB /\
  Scrambler.dispatched (foldl Scrambler.step s6 events)
  = Scrambler.dispatched s ++ movesA ++ [mB].
Proof.
  simpl.
  destruct (shuffleCube_midRun startA movesA s Hidle Htimers)
    as (Hmid & Hlog & Hbusy & Hto & Hnext).
  destruct (exists_last (l := movesA)) as (pre & m & ->).
  { intros ->. discriminate HmovesA. }
  rewrite length_app in HmovesA, Hticks. simpl in HmovesA, Hticks.
  apply onTime_app in Htime. destruct Htime as [Htime [Hlast _]].
  simpl in Hlast.
  rewrite fmap_app, foldl_app. simpl.
  destruct (ticks_dispatch_moves _ startA pre [m] _ 0 ticks _ Hmid)
    as (Hmid' & Hlog' & Hbusy' & Hto' & Hnext'); [lia|exact Htime|simpl; lia|].
  simpl in Hmid'.
  assert (Hdue : startA + inject_Z (Z.of_nat (length pre)) * Scrambler.stepDelay
                 <= tlast).
  { replace (length pre) with (length ticks) by lia. exact Hlast. }
  destruct (fireNext_last_move _ startA _ _ m tlast _ Hmid' Hdue)
    as (Htimers2 & Hlog2 & Hbusy2 & Hon2); [lia|].
  destruct (fireNext_last_move_ids _ startA _ _ m tlast _ Hmid' Hdue)
    as (Hnext2 & Hto2 & _); [lia|].
  simpl in Htimers2, Hlog2, Hbusy2, Hon2, Hnext2, Hto2.
  assert (Hlogs : Scrambler.dispatched
                    (Scrambler.fireNext tlast
                       (foldl Scrambler.step
                          (Scrambler.shuffleCube false startA (pre ++ [m]) s)
                          (Scrambler.tick <$> ticks)))
                  = Scrambler.dispatched s ++ pre ++ [m]).
  { rewrite Hlog2, Hlog', Hlog. now rewrite app_assoc. }
  rewrite Hnext', Hnext in Hnext2, Htimers2.
  rewrite Hto', Hto in Hto2.
  remember (Scrambler.fireNext tlast
              (foldl Scrambler.step
                 (Scrambler.shuffleCube false startA (pre ++ [m]) s)
                 (Scrambler.tick <$> ticks))) as s2 eqn:Hs2.
  clear Hs2 Hmid Hmid' Hlog Hlog' Hlog2 Hbusy Hbusy' Hto Hto' Hnext Hnext'.
  (* the stop *)
  destruct (stopShuffle_inactive s2) as (_ & Hidle3 & Hlog3).
  destruct (stopShuffle_fields s2) as (Htimers3 & Hnext3 & Hcm3).
  { intros t Ht. rewrite Htimers2 in Ht. apply list_elem_of_singleton in Ht.
    subst t. simpl. rewrite Hto2, elem_of_seq. lia. }
  remember (Scrambler.stopShuffle s2) as s3 eqn:Hs3. clear Hs3.
  (* the new shuffle *)
  destruct (shuffleCube_fields startB (mB :: restB) s3 Hidle3)
    as (Hbusy4 & Hon4 & Htimers4 & Hcount4 & Hlog4).
  simpl in Hbusy4, Hon4, Htimers4, Hcount4, Hlog4.
  remember (Scrambler.shuffleCube false startB (mB :: restB) s3) as s4 eqn:Hs4.
  clear Hs4. split; [exact Hbusy4|].
  rewrite Htimers3, Htimers2, Hnext3, Hnext2 in Htimers4. simpl in Htimers4.
  (* its first move, then the leftover timer *)
  destruct (fireNext_before_leftover _ _ _ _ _ _ _ tB s4 Hon4 Htimers4 Hcount4)
    as (Htimers5 & Hlog5); [lia|lra|lra|].
  simpl in Htimers5, Hlog5.
  remember (Scrambler.fireNext tB s4) as s5 eqn:Hs5. clear Hs5.
  destruct (fireNext_leftover _ _ _ _ _ _ tF s5 Htimers5)
    as (Hidle6 & Hoff6 & Hto6 & Htimers6 & Hlog6); [lia|lra|lra|].
  simpl in Hidle6, Hoff6, Hto6, Htimers6, Hlog6.
  remember (Scrambler.fireNext tF s5) as s6 eqn:Hs6. clear Hs6.
  split; [exact Hidle6|]. split; [exact Hto6|]. split.
  - now rewrite Htimers6, length_moveTimers.
  - destruct (inactive_stays_inactive events s6 Hoff6) as [Hkeep _].
    rewrite Hkeep, Hlog6, Hlog5, Hlog4, Hlog3, Hlogs. now rewrite <- !app_assoc.
Qed.

Lemma leftover_timer_cuts_next_shuffle_witness :
  let mB := {| face := top; clockwise := true |} in
  let restB := drop 1 sampleMoves in
  let events := [Scrambler.tick 12550; Scrambler.tick 13150; Scrambler.stop] in
  let s2 := foldl Scrambler.step
              (Scrambler.shuffleCube false 0 sampleMoves Scrambler.initialState)
              (Scrambler.tick <$> sampleTicks 19 ++ [11400]) in
  let s4 := Scrambler.shuffleCube false 11950 (mB :: restB) (Scrambler.stopShuffle s2) in
  let s6 := Scrambler.fireNext 12000 (Scrambler.fireNext 11960 s4) in
  Scrambler.isShuffling s4 = true /\
  Scrambler.isShuffling s6 = false /\
  Scrambler.shuffleTimeouts s6 = [] /\
  length (Scrambler.timers s6) = length restB /\
  Scrambler.dispatched (foldl Scrambler.step s6 events)
  = Scrambler.dispatched Scrambler.initialState ++ sampleMoves ++ [mB].
Proof.
  apply (leftover_timer_cuts_next_shuffle Scrambler.initialState 0 11950 sampleMoves
           {| face := top; clockwise := true |} (drop 1 sampleMoves)
           (sampleTicks 19) 11400 11960 12000
           [Scrambler.tick 12550; Scrambler.tick 13150; Scrambler.stop]).
  - reflexivity.
  - reflexivity.
  - reflexivity.
  - reflexivity.
  - reflexivity.
  - simpl. repeat split; unfold Qle; simpl; lia.
  - unfold Qle. simpl. lia.
  - unfold Qlt. simpl. lia.
  - unfold Qle. simpl. lia.
  - unfold Qle. simpl. lia.
Defined.

(** ** Reset during a turn *)

(** [resetCube] does not cancel a turn under way.  Called between the
    request and the commit, it shows the solved cube until the next frame
    only: the frame that completes the turn puts back the state the turn
    started from, with the turn committed. *)
Theorem reset_during_turn_is_undone (Math_cos Math_sin : Q -> Q) (Math_PI : Q)
    (f : Face) (cw : bool) (start : Q) (frames : list Q) (t : Q) (e : Engine)
    (Hidle : isAnimating e = false)
    (Hearly : Forall (fun t' => t' < start + animationDuration) frames)
    (Hlate : start + animationDuration <= t) :
  let e1 := runTurn Math_cos Math_sin Math_PI f cw start frames e in
  cubeState (resetCube e1) = initializeCube /\
  cubeState (animate Math_cos Math_sin Math_PI t (resetCube e1))
  = committedTurn f cw (cubeState e).
Proof.
  simpl. split; [reflexivity|].
  assert (Hturn : turning f cw start (cubeState e) (isShuffling e)
                    (runTurn Math_cos Math_sin Math_PI f cw start frames e)).
  { unfold runTurn. apply frames_stay_turning; [exact Hearly|].
    now apply rotateFace_turning. }
  rewrite reset_during_turn.
  - now rewrite (animate_completes _ _ _ f cw start t (cubeState e) (isShuffling e)).
  - destruct Hturn as (st & _ & ->). discriminate.
Qed.

Lemma reset_during_turn_is_undone_witness :
  let e1 := runTurn (fun a => 1 - a * a / 2) (fun a => a) (355 # 113)
              front true 0 [100; 200] initialEngine in
  cubeState (resetCube e1) = initializeCube /\
  cubeState (animate (fun a => 1 - a * a / 2) (fun a => a) (355 # 113) 500
               (resetCube e1))
  = committedTurn front true (cubeState initialEngine).
Proof.
  apply (reset_during_turn_is_undone (fun a => 1 - a * a / 2) (fun a => a) (355 # 113)
           front true 0 [100; 200] 500 initialEngine).
  - reflexivity.
  - repeat constructor; unfold Qlt; simpl; lia.
  - unfold animationDuration, Qle. simpl. lia.
Defined.
